(** * Smart evacuation router: a shallow embedding of the routing engine

    This development models the Python modules [src/evacuation_algorithm.py],
    [src/data_processing.py] and the drawing helpers of [src/map_utils.py],
    and proves properties of them.

    Modelling choices:
    - Python floats are modelled by real numbers [R]; [float('inf')] is the
      [Inf] constructor of [ext].
    - A Python [dict] is an association list updated in place ([dget],
      [dset]); iteration order is insertion order, as in Python.
    - A networkx [Graph] is a node table and a list of undirected edges,
      one attribute dictionary per edge (networkx shares one dict between
      [adj[u][v]] and [adj[v][u]]).
    - Exceptions ([KeyError], [TypeError], ...) are the [inl] side of the
      [except] monad. [while] loops run on fuel; running out of fuel is the
      [Diverge] outcome (the Python loop would still be running).
    - A folium map is the list of layers added to it, in order; [add_to(m)]
      appends one layer. *)

From Stdlib Require Import Reals Lra List String Bool Arith Lia.
From Stdlib Require Import ZArith DecimalString.
Import ListNotations.
Open Scope R_scope.

(** ** Exceptions *)

Inductive exn :=
| KeyError
| TypeError
| ValueError
| ZeroDivisionError
| Diverge
| IndexError.

Definition except (A : Type) : Type := (exn + A)%type.

Definition Ok {A} (a : A) : except A := inr a.
Definition Err {A} (e : exn) : except A := inl e.

Definition bind {A B} (m : except A) (k : A -> except B) : except B :=
  match m with
  | inl e => inl e
  | inr a => k a
  end.

Notation "'let*' x ':=' m 'in' k" := (bind m (fun x => k))
  (at level 200, x name, m at level 100, k at level 200).

(** ** Python dictionaries as association lists *)

Section Dict.
Variables K V : Type.
Variable keqb : K -> K -> bool.

(** [d.get(k)] *)
Fixpoint dget (d : list (K * V)) (k : K) : option V :=
  match d with
  | [] => None
  | (k', v) :: d' => if keqb k k' then Some v else dget d' k
  end.

(** [d[k] = v]: overwrite in place, or append a new key. *)
Fixpoint dset (d : list (K * V)) (k : K) (v : V) : list (K * V) :=
  match d with
  | [] => [(k, v)]
  | (k', v') :: d' => if keqb k k' then (k', v) :: d' else (k', v') :: dset d' k v
  end.

(** [d.get(k, default)] *)
Definition dget_or (d : list (K * V)) (k : K) (default : V) : V :=
  match dget d k with Some v => v | None => default end.

(** [k in d] *)
Definition dmem (d : list (K * V)) (k : K) : bool :=
  match dget d k with Some _ => true | None => false end.

End Dict.

Arguments dget {K V} keqb d k.
Arguments dset {K V} keqb d k v.
Arguments dget_or {K V} keqb d k default.
Arguments dmem {K V} keqb d k.

(** ** Attribute values and attribute dictionaries *)

(** The attribute values the engine reads: OSM tags are strings,
    coordinates and lengths are floats, [is_water] is a bool. *)
Inductive val :=
| VStr (s : string)
| VNum (r : R)
| VBool (b : bool).

Definition attrs := list (string * val).

Definition aget (d : attrs) (k : string) : option val := dget String.eqb d k.
Definition aget_or (d : attrs) (k : string) (v : val) : val := dget_or String.eqb d k v.
Definition aset (d : attrs) (k : string) (v : val) : attrs := dset String.eqb d k v.
Definition amem (d : attrs) (k : string) : bool := dmem String.eqb d k.

(** Python truthiness, as used by [if d.get('is_water', False):]. *)
Definition truthy (v : val) : bool :=
  match v with
  | VStr s => negb (String.eqb s "")
  | VNum r => if Req_dec_T r 0 then false else true
  | VBool b => b
  end.

(** A value used in float arithmetic ([math.radians], [*], [+]):
    bools are ints in Python, strings raise [TypeError]. *)
Definition as_number (v : val) : except R :=
  match v with
  | VNum r => Ok r
  | VBool b => Ok (if b then 1 else 0)
  | VStr _ => Err TypeError
  end.

(** [v in ['a', 'b', ...]] for a list of string literals. *)
Definition val_in (v : val) (l : list string) : bool :=
  match v with
  | VStr s => existsb (String.eqb s) l
  | _ => false
  end.

(** [d[k]]: [KeyError] when the key is absent. *)
Definition aindex (d : attrs) (k : string) : except val :=
  match aget d k with Some v => Ok v | None => Err KeyError end.

(** ** Extended reals: Python floats with [inf] *)

Inductive ext := Fin (r : R) | Inf.

Definition ext_add (a b : ext) : ext :=
  match a, b with Fin x, Fin y => Fin (x + y) | _, _ => Inf end.

Definition ext_ltb (a b : ext) : bool :=
  match a, b with
  | Fin x, Fin y => if Rlt_dec x y then true else false
  | Fin _, Inf => true
  | Inf, _ => false
  end.

Definition ext_eqb (a b : ext) : bool :=
  match a, b with
  | Fin x, Fin y => if Req_dec_T x y then true else false
  | Inf, Inf => true
  | _, _ => false
  end.

Definition ext_min (a b : ext) : ext := if ext_ltb b a then b else a.

Definition Rleb (x y : R) : bool := if Rle_dec x y then true else false.
Definition Rltb (x y : R) : bool := if Rlt_dec x y then true else false.

(** ** The road network *)

Definition node := nat.

(** A networkx [Graph]: [G._node] and its undirected edges in insertion
    order, each with its attribute dictionary. *)
Record graph := mkGraph {
  g_nodes : list (node * attrs);
  g_edges : list (node * node * attrs)
}.

(** [G.nodes[n]] *)
Definition node_attrs (G : graph) (n : node) : except attrs :=
  match dget Nat.eqb (g_nodes G) n with Some d => Ok d | None => Err KeyError end.

(** [G.neighbors(u)]: the other endpoint of every edge at [u], in
    adjacency (insertion) order. *)
Definition neighbors (G : graph) (u : node) : list node :=
  flat_map (fun e : node * node * attrs =>
              let '(a, b, _) := e in
              if Nat.eqb a u then [b] else if Nat.eqb b u then [a] else [])
           (g_edges G).

(** [G.edges(u, data=True)]: the attribute dict of every edge at [u]. *)
Definition incident_edges (G : graph) (u : node) : list attrs :=
  flat_map (fun e : node * node * attrs =>
              let '(a, b, d) := e in
              if Nat.eqb a u then [d] else if Nat.eqb b u then [d] else [])
           (g_edges G).

(** [G.get_edge_data(u, v, default={})] *)
Fixpoint find_edge (es : list (node * node * attrs)) (u v : node) : attrs :=
  match es with
  | [] => []
  | (a, b, d) :: es' =>
      if (Nat.eqb a u && Nat.eqb b v) || (Nat.eqb a v && Nat.eqb b u) then d
      else find_edge es' u v
  end.

Definition get_edge_data (G : graph) (u v : node) : attrs := find_edge (g_edges G) u v.

(** [node_data.get('is_water', False)] *)
Definition is_water (d : attrs) : bool := truthy (aget_or d "is_water" (VBool false)).

(** ** [haversine_distance]

    [math.sqrt] raises [ValueError] on a negative argument and
    [math.asin] on an argument above 1. *)
Definition radians (x : R) : R := x * (PI / 180).

Definition haversine_distance (lat1 lon1 lat2 lon2 : R) : except R :=
  let lat1 := radians lat1 in
  let lon1 := radians lon1 in
  let lat2 := radians lat2 in
  let lon2 := radians lon2 in
  let dlon := lon2 - lon1 in
  let dlat := lat2 - lat1 in
  let a := sin (dlat / 2) ^ 2 + cos lat1 * cos lat2 * sin (dlon / 2) ^ 2 in
  if Rlt_dec a 0 then Err ValueError
  else if Rlt_dec 1 (sqrt a) then Err ValueError
  else
    let c := 2 * asin (sqrt a) in
    let r := 6371000 in
    Ok (c * r).

(** [haversine_distance(node['y'], node['x'], lat2, lon2)] with the
    attribute values as read from a node dictionary. *)
Definition haversine_val (y x : val) (lat2 lon2 : R) : except R :=
  let* lat1 := as_number y in
  let* lon1 := as_number x in
  haversine_distance lat1 lon1 lat2 lon2.

(** ** Hazard membership tests *)

(** [is_in_disaster_radius(point, disaster_node, radius, G)] *)
Definition is_in_disaster_radius (point : node) (disaster_node : R * R) (radius : R)
    (G : graph) : except bool :=
  let* nd := node_attrs G point in
  let* y := aindex nd "y" in
  let* x := aindex nd "x" in
  let* distance := haversine_val y x (fst disaster_node) (snd disaster_node) in
  Ok (Rleb distance radius).

(** [check_if_in_radius(point, center, radius)] of data_processing.py *)
Definition check_if_in_radius (point center : R * R) (radius : R) : except bool :=
  let* distance := haversine_distance (fst point) (snd point) (fst center) (snd center) in
  Ok (Rleb distance radius).

(** ** Exit-node discovery: [get_disaster_exit_nodes] *)

Definition buffer_distance : R := 100.

Definition max_exit_nodes : nat := 10.

Definition major_road_types : list string :=
  ["motorway"; "trunk"; "primary"; "secondary"; "tertiary"]%string.

Definition mem (n : node) (s : list node) : bool := existsb (Nat.eqb n) s.

(** [s.add(n)] on a Python set of node ids, kept as a duplicate-free list.
    The iteration order of a Python set of ints is implementation
    defined; insertion order is used here. *)
Definition set_add (n : node) (s : list node) : list node :=
  if mem n s then s else s ++ [n].

(** [list(set(xs))] *)
Definition list_set (xs : list node) : list node := fold_left (fun s n => set_add n s) xs [].

(** First pass: classify the non-water nodes with coordinates into
    [inside_nodes] and [outside_nodes]. *)
Fixpoint classify_nodes (ns : list (node * attrs)) (disaster_node : R * R) (radius : R)
    (inside outside : list node) : except (list node * list node) :=
  match ns with
  | [] => Ok (inside, outside)
  | (n, nd) :: ns' =>
      if amem nd "x" && amem nd "y" then
        if is_water nd then classify_nodes ns' disaster_node radius inside outside
        else
          let* y := aindex nd "y" in
          let* x := aindex nd "x" in
          let* distance := haversine_val y x (fst disaster_node) (snd disaster_node) in
          if Rleb distance radius then
            classify_nodes ns' disaster_node radius (set_add n inside) outside
          else if Rleb distance (radius + buffer_distance) then
            classify_nodes ns' disaster_node radius inside (set_add n outside)
          else classify_nodes ns' disaster_node radius inside outside
      else classify_nodes ns' disaster_node radius inside outside
  end.

(** [boundary_nodes]: pairs (inside node, outside neighbour) joined by a
    non-water edge. *)
Definition boundary_pairs (G : graph) (inside outside : list node) : list (node * node) :=
  flat_map (fun u =>
              flat_map (fun nb =>
                          if mem nb outside && negb (is_water (get_edge_data G u nb))
                          then [(u, nb)] else [])
                       (neighbors G u))
           inside.

(** The road type of a node: the [highway] tag of the first incident
    edge that has one, ["unknown"] otherwise. *)
Fixpoint first_highway (es : list attrs) : val :=
  match es with
  | [] => VStr "unknown"
  | d :: es' => match aget d "highway" with Some v => v | None => first_highway es' end
  end.

(** The body of the scoring loop for one candidate: [None] when the
    candidate is skipped as a water node. *)
Definition score_candidate (G : graph) (disaster_node : R * R) (radius : R) (n : node)
    : except (option (node * R)) :=
  let* nd := node_attrs G n in
  if is_water nd then Ok None
  else
    let* y := aindex nd "y" in
    let* x := aindex nd "x" in
    let* distance := haversine_val y x (fst disaster_node) (snd disaster_node) in
    let border_distance := distance - radius in
    let proximity_score := 1 - border_distance / buffer_distance in
    let highway_type := first_highway (incident_edges G n) in
    let road_score := if val_in highway_type major_road_types then 1 / 2 else 0 in
    let final_score := proximity_score + road_score in
    Ok (Some (n, final_score)).

Fixpoint score_all (G : graph) (disaster_node : R * R) (radius : R) (cands : list node)
    : except (list (node * R)) :=
  match cands with
  | [] => Ok []
  | n :: cands' =>
      let* o := score_candidate G disaster_node radius n in
      let* rest := score_all G disaster_node radius cands' in
      match o with Some p => Ok (p :: rest) | None => Ok rest end
  end.

(** [list.sort(key=lambda x: x[1], reverse=True)]: a stable sort,
    highest score first, equal scores in their original order. *)
Fixpoint insert_desc (x : node * R) (l : list (node * R)) : list (node * R) :=
  match l with
  | [] => [x]
  | y :: l' => if Rltb (snd y) (snd x) then x :: l else y :: insert_desc x l'
  end.

Definition sort_desc (l : list (node * R)) : list (node * R) :=
  fold_left (fun acc x => insert_desc x acc) l [].

Definition get_disaster_exit_nodes (G : graph) (disaster_node : R * R) (disaster_radius : R)
    : except (list node) :=
  let* io := classify_nodes (g_nodes G) disaster_node disaster_radius [] [] in
  let '(inside_nodes, outside_nodes) := io in
  let boundary_nodes := boundary_pairs G inside_nodes outside_nodes in
  let exit_node_candidates := list_set (map snd boundary_nodes) in
  let* exit_nodes_with_score := score_all G disaster_node disaster_radius exit_node_candidates in
  let sorted := sort_desc exit_nodes_with_score in
  let exit_nodes := map fst (firstn max_exit_nodes sorted) in
  match exit_nodes, exit_node_candidates with
  | [], c0 :: _ => Ok [c0]
  | _, _ => Ok exit_nodes
  end.

(** ** The A* search: [a_star_evacuation] *)

(** [min_exit_distance]: the loop over [exit_nodes] in [heuristic]. *)
Fixpoint min_exit_distance (G : graph) (exit_nodes : list node) (y x : val) (acc : ext)
    : except ext :=
  match exit_nodes with
  | [] => Ok acc
  | e :: es =>
      let* exit_data := node_attrs G e in
      if amem exit_data "x" && amem exit_data "y" then
        let* ey := aindex exit_data "y" in
        let* ex := aindex exit_data "x" in
        let* lat1 := as_number y in
        let* lon1 := as_number x in
        let* direct_distance := haversine_val ey ex lat1 lon1 in
        min_exit_distance G es y x (ext_min acc (Fin direct_distance))
      else min_exit_distance G es y x acc
  end.

(** [min_exit_distance * (1 + border_factor)]. The factor is at least 1
    whenever this branch is reached with a positive radius, so
    [inf * k = inf]. *)
Definition ext_scale (m : ext) (k : R) : ext :=
  match m with Fin v => Fin (v * k) | Inf => Inf end.

(** The nested [heuristic(node)] of [a_star_evacuation]. *)
Definition heuristic (G : graph) (exit_nodes : list node) (disaster_node : R * R)
    (disaster_radius : R) (n : node) : except ext :=
  let* node_data := node_attrs G n in
  if negb (amem node_data "x" && amem node_data "y") then Ok Inf
  else if is_water node_data then Ok Inf
  else
    let* y := aindex node_data "y" in
    let* x := aindex node_data "x" in
    let* node_to_disaster_distance :=
      haversine_val y x (fst disaster_node) (snd disaster_node) in
    let* min_exit := min_exit_distance G exit_nodes y x Inf in
    if Rleb node_to_disaster_distance disaster_radius then
      if Req_dec_T disaster_radius 0 then Err ZeroDivisionError
      else
        let border_factor :=
          3 / 2 * (disaster_radius - node_to_disaster_distance) / disaster_radius in
        Ok (ext_scale min_exit (1 + border_factor))
    else Ok min_exit.

(** The search state: the [PriorityQueue] contents, [open_set_hash],
    [came_from] and [g_score]. ([f_score] is only ever read right after
    it is written, so the pushed priority stands for it.) *)
Record st := mkSt {
  open_set : list (ext * node);
  open_hash : list node;
  came_from : list (node * node);
  g_score : list (node * ext)
}.

(** Tuple order on [(f, node)] entries. *)
Definition entry_lt (a b : ext * node) : bool :=
  ext_ltb (fst a) (fst b) || (ext_eqb (fst a) (fst b) && Nat.ltb (snd a) (snd b)).

(** Select the least entry, returning it and the remaining entries. *)
Fixpoint pq_select (best : ext * node) (l : list (ext * node))
    : (ext * node) * list (ext * node) :=
  match l with
  | [] => (best, [])
  | e :: l' =>
      if entry_lt e best then
        let '(m, r) := pq_select e l' in (m, best :: r)
      else
        let '(m, r) := pq_select best l' in (m, e :: r)
  end.

(** [open_set.get()] on a non-empty queue; [None] when empty. *)
Definition pq_get (l : list (ext * node)) : option ((ext * node) * list (ext * node)) :=
  match l with
  | [] => None
  | e :: l' => Some (pq_select e l')
  end.

(** [open_set_hash.remove(n)] *)
Definition set_remove (n : node) (s : list node) : except (list node) :=
  if mem n s then Ok (filter (fun m => negb (Nat.eqb m n)) s) else Err KeyError.

(** [g_score[n]] *)
Definition gindex (g : list (node * ext)) (n : node) : except ext :=
  match dget Nat.eqb g n with Some v => Ok v | None => Err KeyError end.

Definition water_penalty_of (edge_data : attrs) : R :=
  if is_water edge_data then 10000 else 1.

(** One iteration of [for neighbor in G.neighbors(current):]. *)
Definition relax (heur : node -> except ext) (G : graph) (current : node) (s : st)
    (neighbor : node) : except st :=
  let* nd := node_attrs G neighbor in
  if is_water nd then Ok s
  else
    let edge_data := get_edge_data G current neighbor in
    let water_penalty := water_penalty_of edge_data in
    let* gc := gindex (g_score s) current in
    let* edge_length := as_number (aget_or edge_data "length" (VNum 100)) in
    let tentative_g_score := ext_add gc (Fin (edge_length * water_penalty)) in
    let* gn := gindex (g_score s) neighbor in
    if ext_ltb tentative_g_score gn then
      let cf := dset Nat.eqb (came_from s) neighbor current in
      let gs := dset Nat.eqb (g_score s) neighbor tentative_g_score in
      let* h := heur neighbor in
      let f := ext_add tentative_g_score h in
      if mem neighbor (open_hash s) then Ok (mkSt (open_set s) (open_hash s) cf gs)
      else Ok (mkSt (open_set s ++ [(f, neighbor)]) (open_hash s ++ [neighbor]) cf gs)
    else Ok s.

Fixpoint expand (heur : node -> except ext) (G : graph) (current : node)
    (nbs : list node) (s : st) : except st :=
  match nbs with
  | [] => Ok s
  | nb :: nbs' =>
      let* s' := relax heur G current s nb in
      expand heur G current nbs' s'
  end.

(** Path reconstruction: [while current in came_from: path.append(current);
    current = came_from[current]], then [path.append(start_node);
    path.reverse()]. *)
Fixpoint reconstruct (fuel : nat) (cf : list (node * node)) (start_node current : node)
    (path : list node) : except (list node) :=
  match fuel with
  | O => Err Diverge
  | S k =>
      match dget Nat.eqb cf current with
      | Some prev => reconstruct k cf start_node prev (path ++ [current])
      | None => Ok (rev (path ++ [start_node]))
      end
  end.

(** [while not open_set.empty(): ...]; [None] when the frontier empties. *)
Fixpoint search (fuel : nat) (heur : node -> except ext) (G : graph)
    (exit_nodes : list node) (start_node : node) (s : st)
    : except (option (list node)) :=
  match fuel with
  | O => Err Diverge
  | S k =>
      match pq_get (open_set s) with
      | None => Ok None
      | Some ((_, current), rest) =>
          let* hash := set_remove current (open_hash s) in
          let s1 := mkSt rest hash (came_from s) (g_score s) in
          if mem current exit_nodes then
            let* path := reconstruct (S (List.length (came_from s1))) (came_from s1)
                                     start_node current [] in
            Ok (Some path)
          else
            let* s2 := expand heur G current (neighbors G current) s1 in
            search k heur G exit_nodes start_node s2
      end
  end.

(** The initial state: [open_set.put((0, start_node))], [came_from = {}],
    [g_score = {node: inf for node in G.nodes()}; g_score[start_node] = 0],
    [open_set_hash = {start_node}]. *)
Definition init_state (G : graph) (start_node : node) : st :=
  mkSt [(Fin 0, start_node)] [start_node] []
       (dset Nat.eqb (map (fun p : node * attrs => (fst p, Inf)) (g_nodes G)) start_node (Fin 0)).

(** [a_star_evacuation(G, start_node, disaster_node, disaster_radius)]:
    [None] is the absence value, [Some []] "already safe". *)
Definition a_star_evacuation (fuel : nat) (G : graph) (start_node : option node)
    (disaster_node : R * R) (disaster_radius : R) : except (option (list node)) :=
  match start_node with
  | None => Ok None
  | Some s =>
      let* inside := is_in_disaster_radius s disaster_node disaster_radius G in
      if negb inside then Ok (Some [])
      else
        let* exit_nodes := get_disaster_exit_nodes G disaster_node disaster_radius in
        match exit_nodes with
        | [] => Ok None
        | _ :: _ =>
            let heur := heuristic G exit_nodes disaster_node disaster_radius in
            let* _ := heur s in
            search fuel heur G exit_nodes s (init_state G s)
        end
  end.

(** ** The network annotator: [filter_road_network]

    The attribute dictionaries are mutable objects shared by reference, so
    the annotator is modelled over a heap of dictionaries: a graph holds
    locations, [G.copy()] allocates fresh dictionaries, and the two
    annotation loops write [is_water] into the dictionaries of the copy. *)

Definition loc := nat.

Record heap := mkHeap {
  h_store : loc -> option attrs;
  h_next : loc
}.

Record hgraph := mkHGraph {
  hg_nodes : list (node * loc);
  hg_edges : list (node * node * loc)
}.

(** The dictionary stored at a location (networkx never holds a dangling
    reference; an unallocated location reads as the empty dict). *)
Definition read (h : heap) (l : loc) : attrs :=
  match h_store h l with Some d => d | None => [] end.

Definition upd (s : loc -> option attrs) (l : loc) (d : attrs) : loc -> option attrs :=
  fun l' => if Nat.eqb l' l then Some d else s l'.

Definition write (h : heap) (l : loc) (d : attrs) : heap :=
  mkHeap (upd (h_store h) l d) (h_next h).

Definition alloc (h : heap) (d : attrs) : loc * heap :=
  (h_next h, mkHeap (upd (h_store h) (h_next h) d) (S (h_next h))).

(** [G.copy()]: [add_nodes_from((n, d.copy()) ...)] and
    [add_edges_from((u, v, datadict.copy()) ...)]; each undirected edge
    gets one fresh dictionary holding a copy of the original one. *)
Fixpoint copy_nodes (h : heap) (ns : list (node * loc)) : heap * list (node * loc) :=
  match ns with
  | [] => (h, [])
  | (n, l) :: ns' =>
      let '(l', h1) := alloc h (read h l) in
      let '(h2, ns'') := copy_nodes h1 ns' in
      (h2, (n, l') :: ns'')
  end.

Fixpoint copy_edges (h : heap) (es : list (node * node * loc))
    : heap * list (node * node * loc) :=
  match es with
  | [] => (h, [])
  | (u, v, l) :: es' =>
      let '(l', h1) := alloc h (read h l) in
      let '(h2, es'') := copy_edges h1 es' in
      (h2, (u, v, l') :: es'')
  end.

Definition graph_copy (h : heap) (G : hgraph) : heap * hgraph :=
  let '(h1, ns) := copy_nodes h (hg_nodes G) in
  let '(h2, es) := copy_edges h1 (hg_edges G) in
  (h2, mkHGraph ns es).

(** [if 'k' in data and data['k'] in [...]] *)
Definition tag_in (d : attrs) (k : string) (l : list string) : bool :=
  match aget d k with Some v => val_in v l | None => false end.

(** The node obstacle rule of the first loop. *)
Definition node_water_tags (d : attrs) : bool :=
  tag_in d "natural" ["water"; "coastline"; "wetland"; "bay"; "beach"; "marsh"]%string
  || tag_in d "waterway" ["river"; "canal"; "stream"; "ditch"; "dock"; "riverbank"]%string
  || (amem d "water" || amem d "harbour" || amem d "dock")
  || tag_in d "landuse" ["reservoir"; "basin"; "water"]%string.

Fixpoint mark_nodes (h : heap) (ns : list (node * loc)) : heap :=
  match ns with
  | [] => h
  | (_, l) :: ns' =>
      let data := read h l in
      mark_nodes (write h l (aset data "is_water" (VBool (node_water_tags data)))) ns'
  end.

(** [is_bridge = 'bridge' in data and data['bridge'] not in ['no', 'false', '0']] *)
Definition is_bridge (d : attrs) : bool :=
  match aget d "bridge" with
  | Some v => negb (val_in v ["no"; "false"; "0"]%string)
  | None => false
  end.

(** [G_filtered.nodes[u]] as a location. *)
Definition node_loc (ns : list (node * loc)) (n : node) : except loc :=
  match dget Nat.eqb ns n with Some l => Ok l | None => Err KeyError end.

(** The new dictionary of one edge in the second loop. *)
Definition edge_annot (data : attrs) (node_u_in_water node_v_in_water : bool) : attrs :=
  let bridge := is_bridge data in
  let d1 := if (node_u_in_water || node_v_in_water) && negb bridge
            then aset data "is_water" (VBool true)
            else aset data "is_water" (VBool false) in
  if existsb (amem d1) ["waterway"; "water"; "natural"]%string then
    if negb bridge then aset d1 "is_water" (VBool true) else d1
  else d1.

Fixpoint mark_edges (ns : list (node * loc)) (h : heap) (es : list (node * node * loc))
    : except heap :=
  match es with
  | [] => Ok h
  | (u, v, l) :: es' =>
      let data := read h l in
      let* lu := node_loc ns u in
      let* lv := node_loc ns v in
      let node_u_in_water := is_water (read h lu) in
      let node_v_in_water := is_water (read h lv) in
      mark_edges ns (write h l (edge_annot data node_u_in_water node_v_in_water)) es'
  end.

(** [filter_road_network(G)]: the heap after the call and the copy. *)
Definition filter_road_network (h : heap) (G : hgraph) : except (heap * hgraph) :=
  let '(h1, G_filtered) := graph_copy h G in
  let h2 := mark_nodes h1 (hg_nodes G_filtered) in
  let* h3 := mark_edges (hg_nodes G_filtered) h2 (hg_edges G_filtered) in
  Ok (h3, G_filtered).

(** ** The other helpers of data_processing.py *)

(** The fallback loop of [get_nearest_node(G, lat, lon)], run when
    [ox.distance.nearest_nodes] raises: the first node with the least
    haversine distance among the nodes that have both coordinates. *)
Fixpoint nearest_loop (ns : list (node * attrs)) (lat lon : R) (min_distance : ext)
    (nearest_node : option node) : except (option node) :=
  match ns with
  | [] => Ok nearest_node
  | (node_id, node_data) :: ns' =>
      if amem node_data "x" && amem node_data "y" then
        let* node_lon := aindex node_data "x" in
        let* node_lat := aindex node_data "y" in
        let* nlat := as_number node_lat in
        let* nlon := as_number node_lon in
        let* distance := haversine_distance lat lon nlat nlon in
        if ext_ltb (Fin distance) min_distance then
          nearest_loop ns' lat lon (Fin distance) (Some node_id)
        else nearest_loop ns' lat lon min_distance nearest_node
      else nearest_loop ns' lat lon min_distance nearest_node
  end.

Definition get_nearest_node_fallback (G : graph) (lat lon : R) : except (option node) :=
  nearest_loop (g_nodes G) lat lon Inf None.

(** The edge loop of [find_exit_nodes(G, disaster_node, disaster_radius)]:
    [exit_nodes] collects the outside endpoint of every edge with one
    endpoint inside the radius and the other outside. *)
Fixpoint border_loop (G : graph) (es : list (node * node * attrs)) (disaster_node : R * R)
    (disaster_radius : R) (exit_nodes : list node) : except (list node) :=
  match es with
  | [] => Ok exit_nodes
  | (u, v, _) :: es' =>
      let* u_data := node_attrs G u in
      let* v_data := node_attrs G v in
      if amem u_data "x" && amem u_data "y" && amem v_data "x" && amem v_data "y" then
        let* uy := aindex u_data "y" in
        let* ux := aindex u_data "x" in
        let* u_distance := haversine_val uy ux (fst disaster_node) (snd disaster_node) in
        let* vy := aindex v_data "y" in
        let* vx := aindex v_data "x" in
        let* v_distance := haversine_val vy vx (fst disaster_node) (snd disaster_node) in
        if Rleb u_distance disaster_radius && Rltb disaster_radius v_distance then
          border_loop G es' disaster_node disaster_radius (exit_nodes ++ [v])
        else if Rleb v_distance disaster_radius && Rltb disaster_radius u_distance then
          border_loop G es' disaster_node disaster_radius (exit_nodes ++ [u])
        else border_loop G es' disaster_node disaster_radius exit_nodes
      else border_loop G es' disaster_node disaster_radius exit_nodes
  end.

Definition find_exit_nodes (G : graph) (disaster_node : R * R) (disaster_radius : R)
    : except (list node) :=
  let* exit_nodes := border_loop G (g_edges G) disaster_node disaster_radius [] in
  Ok (list_set exit_nodes).

(** ** [get_path_coordinates] of evacuation_algorithm.py *)

(** [for node_id in path: node_data = G.nodes[node_id]; if 'x' in node_data
    and 'y' in node_data: coordinates.append((node_data['y'], node_data['x']))]
    (the same loop builds [path_coords] in [add_evacuation_paths], with
    two-element lists instead of tuples). *)
Fixpoint coords_loop (G : graph) (path : list node) : except (list (val * val)) :=
  match path with
  | [] => Ok []
  | node_id :: path' =>
      let* node_data := node_attrs G node_id in
      if amem node_data "x" && amem node_data "y" then
        let* y := aindex node_data "y" in
        let* x := aindex node_data "x" in
        let* rest := coords_loop G path' in
        Ok ((y, x) :: rest)
      else coords_loop G path'
  end.

Definition get_path_coordinates (G : graph) (path : list node) : except (list (val * val)) :=
  match path with
  | [] => Ok []
  | _ :: _ => coords_loop G path
  end.

(** ** The drawing helpers of map_utils.py *)

(** [check_if_in_radius(point, center, radius)] of map_utils.py, which
    repeats the haversine formula inline. *)
Definition check_if_in_radius_map (point center : R * R) (radius : R) : except bool :=
  let '(lat1, lon1) := point in
  let '(lat2, lon2) := center in
  let lat1 := radians lat1 in
  let lon1 := radians lon1 in
  let lat2 := radians lat2 in
  let lon2 := radians lon2 in
  let dlon := lon2 - lon1 in
  let dlat := lat2 - lat1 in
  let a := sin (dlat / 2) ^ 2 + cos lat1 * cos lat2 * sin (dlon / 2) ^ 2 in
  if Rlt_dec a 0 then Err ValueError
  else if Rlt_dec 1 (sqrt a) then Err ValueError
  else
    let c := 2 * asin (sqrt a) in
    let r := 6371000 in
    let distance := c * r in
    Ok (Rleb distance radius).

(** The folium layers the helpers add; a point [[lat, lon]] built from
    node attributes is kept as the pair of attribute values. *)
Inductive layer :=
| Marker (location : R * R) (icon_color icon_symbol : string) (popup : string)
| PolyLine (locations : list (val * val)) (color : string) (weight : nat) (opacity : R)
    (popup : string)
| RegularPolygonMarker (location : val * val) (number_of_sides radius : nat)
    (rotation : R) (color fill_color : string) (fill_opacity : R).

(** [str(n)] for a non-negative int. *)
Definition nat_str (n : nat) : string := NilZero.string_of_uint (Nat.to_uint n).



(** [math.atan2(y, x)] on reals (no signed zeros). *)
Definition atan2 (y x : R) : R :=
  if Rlt_dec 0 x then atan (y / x)
  else if Rlt_dec x 0 then
    (if Rle_dec 0 y then atan (y / x) + PI else atan (y / x) - PI)
  else if Rlt_dec 0 y then PI / 2
  else if Rlt_dec y 0 then - (PI / 2)
  else 0.

Definition degrees (r : R) : R := r * (180 / PI).

(** [a - b] on two attribute values. *)
Definition val_sub (a b : val) : except R :=
  let* x := as_number a in
  let* y := as_number b in
  Ok (x - y).

(** [add_arrow(m, start_point, end_point, color)]; a point is
    [[lat, lon]], so [point[1]] is the longitude and [point[0]] the
    latitude. *)
Definition add_arrow (m : list layer) (start_point end_point : val * val) (color : string)
    : except (list layer) :=
  let x1 := snd start_point in
  let y1 := fst start_point in
  let x2 := snd end_point in
  let y2 := fst end_point in
  let* dy := val_sub y2 y1 in
  let* dx := val_sub x2 x1 in
  let angle := degrees (atan2 dy dx) in
  Ok (m ++ [RegularPolygonMarker end_point 3 6 angle color color (8 / 10)]).

(** Python list indexing [l[k]]: a negative [k] counts from the end,
    out of range raises [IndexError]. *)
Definition py_index {A : Type} (l : list A) (k : Z) : except A :=
  let n := Z.of_nat (List.length l) in
  let k' := if (k <? 0)%Z then (k + n)%Z else k in
  if ((k' <? 0)%Z || (n <=? k')%Z)%bool then Err IndexError
  else match nth_error l (Z.to_nat k') with Some a => Ok a | None => Err IndexError end.

Definition route_colors : list string :=
  ["blue"; "purple"; "orange"; "darkred"; "darkblue"; "darkgreen"; "cadetblue";
   "darkpurple"; "pink"; "lightblue"; "lightgreen"; "gray"; "black"]%string.

(** The body of the loop of [add_evacuation_paths] for the [i]-th item. *)
Definition draw_route (G : graph) (m : list layer) (i : nat) (route : option (list node))
    : except (list layer) :=
  match route with
  | None | Some [] => Ok m
  | Some route =>
      let* path_coords := coords_loop G route in
      match path_coords with
      | [] => Ok m
      | _ :: _ =>
          let color_idx := Nat.modulo i (List.length route_colors) in
          let* route_color := py_index route_colors (Z.of_nat color_idx) in
          let m1 := m ++ [PolyLine path_coords route_color 4 (8 / 10)
                            ("Evacuation Route for Person " ++ nat_str (i + 1))%string] in
          let n := Z.of_nat (List.length path_coords) in
          if (2 <=? n)%Z then
            let midpoint_idx := (n / 2)%Z in
            let* p1 := py_index path_coords (midpoint_idx - 1)%Z in
            let* p2 := py_index path_coords midpoint_idx in
            let* m2 := add_arrow m1 p1 p2 route_color in
            if (4 <=? n)%Z then
              let end_idx := (n - 2)%Z in
              let* p3 := py_index path_coords (end_idx - 1)%Z in
              let* p4 := py_index path_coords end_idx in
              add_arrow m2 p3 p4 route_color
            else Ok m2
          else Ok m1
      end
  end.

Fixpoint routes_loop (G : graph) (m : list layer) (i : nat)
    (items : list ((R * R) * option (list node))) : except (list layer) :=
  match items with
  | [] => Ok m
  | (_, route) :: items' =>
      let* m' := draw_route G m i route in
      routes_loop G m' (S i) items'
  end.

(** [add_evacuation_paths(m, evacuation_routes, G)]: the routes dict as
    its list of items, a route being [None] or a list of node ids. *)
Definition add_evacuation_paths (m : list layer)
    (evacuation_routes : list ((R * R) * option (list node))) (G : graph)
    : except (list layer) :=
  match evacuation_routes with
  | [] => Ok m
  | _ :: _ => routes_loop G m 0 evacuation_routes
  end.

(** ** Concrete networks *)

(** A water node 0 and a dry node 1 at the hazard centre (0, 0), and a
    dry node 2 about 111 m east of it; edges 0-2 and 1-2. *)
Definition G_water_start : graph := mkGraph
  [(0%nat, [("y", VNum 0); ("x", VNum 0); ("is_water", VBool true)]);
   (1%nat, [("y", VNum 0); ("x", VNum 0); ("is_water", VBool false)]);
   (2%nat, [("y", VNum 0); ("x", VNum (1 / 1000)); ("is_water", VBool false)])]%string
  [(0%nat, 2%nat, []); (1%nat, 2%nat, [])].

(** A single node without coordinates. *)
Definition G_no_coords : graph := mkGraph [(0%nat, [])] [].

(** Node 2 lies on a residential road (edge 1-2, listed first) and on a
    primary road (edge 3-2). *)
Definition G_two_roads : graph := mkGraph
  [(1%nat, [("y", VNum 0); ("x", VNum 0); ("is_water", VBool false)]);
   (2%nat, [("y", VNum 0); ("x", VNum (1 / 1000)); ("is_water", VBool false)]);
   (3%nat, [("y", VNum 0); ("x", VNum (2 / 1000)); ("is_water", VBool false)])]%string
  [(1%nat, 2%nat, [("highway", VStr "residential")]);
   (3%nat, 2%nat, [("highway", VStr "primary")])]%string.

(** A heap with two water nodes (locations 0 and 1) joined by a bridge
    edge that also carries a [waterway] tag (location 2). *)
Definition bridge_store (l : loc) : option attrs :=
  match l with
  | 0%nat => Some [("natural", VStr "water")]
  | 1%nat => Some [("waterway", VStr "river")]
  | 2%nat => Some [("bridge", VStr "yes"); ("waterway", VStr "canal"); ("length", VNum 30)]
  | _ => None
  end%string.

Definition bridge_heap : heap := mkHeap bridge_store 3%nat.

Definition bridge_graph : hgraph := mkHGraph [(10%nat, 0%nat); (11%nat, 1%nat)] [(10%nat, 11%nat, 2%nat)].

(** ** Predicates used in the statements *)

(** Consecutive nodes of a path are joined by an edge of [G]. *)
Fixpoint path_adjacent (G : graph) (p : list node) : Prop :=
  match p with
  | a :: ((b :: _) as p') => In b (neighbors G a) /\ path_adjacent G p'
  | _ => True
  end.

(** [n] is a node of [G] that is not flagged [is_water]. *)
Definition non_water_node (G : graph) (n : node) : Prop :=
  exists nd, node_attrs G n = Ok nd /\ is_water nd = false.

(** Scores listed highest first. *)
Fixpoint sorted_desc (l : list R) : Prop :=
  match l with
  | a :: ((b :: _) as l') => b <= a /\ sorted_desc l'
  | _ => True
  end.

(** [is_water] is populated with a bool in the dictionary at [l]. *)
Definition has_is_water (h : heap) (l : loc) : Prop :=
  exists b, aget (read h l) "is_water" = Some (VBool b).

(** Node data [nd] has both coordinates and its haversine distance from
    ([lat], [lon]) is [d], as [get_nearest_node] computes it. *)
Definition coord_dist (nd : attrs) (lat lon d : R) : Prop :=
  amem nd "x" && amem nd "y" = true /\
  exists y x ry rx, aindex nd "y" = Ok y /\ aindex nd "x" = Ok x /\
    as_number y = Ok ry /\ as_number x = Ok rx /\ haversine_distance lat lon ry rx = Ok d.

(** Node [u] of [G] has both coordinates and lies at distance [d] from
    [center], as the engine computes it from [node['y']], [node['x']]. *)
Definition node_dist (G : graph) (center : R * R) (u : node) (d : R) : Prop :=
  exists nd y x, node_attrs G u = Ok nd /\ amem nd "x" && amem nd "y" = true /\
    aindex nd "y" = Ok y /\ aindex nd "x" = Ok x /\
    haversine_val y x (fst center) (snd center) = Ok d.

(** [n] is the outside endpoint of an edge of [es] whose other endpoint
    is inside the radius (both endpoints with coordinates). *)
Definition crossing_endpoint (G : graph) (es : list (node * node * attrs)) (center : R * R)
    (radius : R) (n : node) : Prop :=
  exists u v ed du dv, In (u, v, ed) es /\ node_dist G center u du /\ node_dist G center v dv /\
    ((du <= radius /\ radius < dv /\ n = v) \/ (dv <= radius /\ radius < du /\ n = u)).

(** [(n, nd)] is listed in [ns] as a dry node with coordinates at
    distance [d] from [center]. *)
Definition listed_at (ns : list (node * attrs)) (center : R * R) (n : node) (d : R) : Prop :=
  exists nd y x, In (n, nd) ns /\ is_water nd = false /\ amem nd "x" && amem nd "y" = true /\
    aindex nd "y" = Ok y /\ aindex nd "x" = Ok x /\
    haversine_val y x (fst center) (snd center) = Ok d.

(** Both values of a [(lat, lon)] point are numbers. *)
Definition numeric_point (p : val * val) : Prop :=
  (exists a, as_number (fst p) = Ok a) /\ (exists b, as_number (snd p) = Ok b).

(** [copy_nodes] and [copy_edges] are the same loop over (key, location)
    pairs; this is that loop with the key type left open, used to prove
    their common facts once. *)
Fixpoint copy_list {K : Type} (h : heap) (xs : list (K * loc)) : heap * list (K * loc) :=
  match xs with
  | [] => (h, [])
  | (k, l) :: xs' =>
      let '(l', h1) := alloc h (read h l) in
      let '(h2, xs'') := copy_list h1 xs' in
      (h2, (k, l') :: xs'')
  end.

(** * Proofs *)

(** ** Dictionaries *)

Section DictFacts.
Variables K V : Type.
Variable keqb : K -> K -> bool.
Hypothesis keqb_spec : forall a b, keqb a b = true <-> a = b.

Lemma dget_dset_same : forall (d : list (K * V)) k v, dget keqb (dset keqb d k v) k = Some v.
Proof.
  induction d as [|[k' v'] d IH]; intros k v; simpl.
  - destruct (keqb k k) eqn:E; [reflexivity|].
    assert (keqb k k = true) by (apply keqb_spec; reflexivity). congruence.
  - destruct (keqb k k') eqn:E; simpl; rewrite ?E; auto.
Qed.

Lemma dget_dset_other : forall (d : list (K * V)) k k2 v,
    k2 <> k -> dget keqb (dset keqb d k v) k2 = dget keqb d k2.
Proof.
  induction d as [|[k' v'] d IH]; intros k k2 v Hne; simpl.
  - destruct (keqb k2 k) eqn:E; [|reflexivity].
    apply keqb_spec in E. congruence.
  - destruct (keqb k k') eqn:E; simpl.
    + apply keqb_spec in E; subst k'.
      destruct (keqb k2 k) eqn:E2; [apply keqb_spec in E2; congruence|reflexivity].
    + destruct (keqb k2 k'); auto.
Qed.

Lemma dget_dset : forall (d : list (K * V)) k k2 v,
    dget keqb (dset keqb d k v) k2 = if keqb k2 k then Some v else dget keqb d k2.
Proof.
  intros. destruct (keqb k2 k) eqn:E.
  - apply keqb_spec in E; subst. apply dget_dset_same.
  - apply dget_dset_other. intro Heq. subst. 
    assert (keqb k k = true) by (apply keqb_spec; reflexivity). congruence.
Qed.
End DictFacts.

Lemma Nat_eqb_spec' : forall a b : nat, Nat.eqb a b = true <-> a = b.
Proof. intros; apply Nat.eqb_eq. Qed.

Lemma String_eqb_spec' : forall a b : string, String.eqb a b = true <-> a = b.
Proof. intros; apply String.eqb_eq. Qed.

Lemma nget_nset : forall (V : Type) (d : list (node * V)) k k2 v,
    dget Nat.eqb (dset Nat.eqb d k v) k2 = if Nat.eqb k2 k then Some v else dget Nat.eqb d k2.
Proof. intros. apply dget_dset, Nat_eqb_spec'. Qed.

Lemma aget_aset_same : forall d k v, aget (aset d k v) k = Some v.
Proof. intros. apply dget_dset_same, String_eqb_spec'. Qed.

(** ** Concrete values of [haversine_distance] *)

Lemma haversine_same : forall a b, haversine_distance a b a b = Ok 0.
Proof.
  intros a b. unfold haversine_distance. cbv zeta.
  replace (radians b - radians b) with 0 by ring.
  replace (radians a - radians a) with 0 by ring.
  replace (0 / 2) with 0 by field. rewrite sin_0.
  replace (0 ^ 2 + cos (radians a) * cos (radians a) * 0 ^ 2) with 0 by ring.
  destruct (Rlt_dec 0 0) as [H|_]; [lra|].
  rewrite sqrt_0. destruct (Rlt_dec 1 0) as [H|_]; [lra|].
  rewrite asin_0. unfold Ok. f_equal. ring.
Qed.

(** The distance from [(0, 0.001)] to [(0, 0)] along the equator. *)
Definition D_equator : R := 2 * (radians (1 / 1000) / 2) * 6371000.

Lemma PI_gt_3 : 3 < PI.
Proof. pose proof PI2_3_2. lra. Qed.

Lemma D_equator_bounds : 100 < D_equator <= 200.
Proof.
  unfold D_equator, radians. pose proof PI_gt_3. pose proof PI_4. split; lra.
Qed.

Lemma haversine_equator : haversine_distance 0 (1 / 1000) 0 0 = Ok D_equator.
Proof.
  unfold haversine_distance. cbv zeta.
  set (u := radians (1 / 1000) / 2).
  assert (Hu : 0 < u < PI / 2).
  { unfold u, radians. pose proof PI_gt_3. split; lra. }
  replace (radians 0 - radians 0) with 0 by (unfold radians; ring).
  replace (radians 0 - radians (1 / 1000)) with (- (2 * u)) by (unfold u, radians; field).
  replace (0 / 2) with 0 by field.
  replace (- (2 * u) / 2) with (- u) by field.
  replace (radians 0) with 0 by (unfold radians; ring).
  rewrite sin_0, cos_0, sin_neg.
  replace (0 ^ 2 + 1 * 1 * (- sin u) ^ 2) with (sin u ^ 2) by ring.
  assert (Hs : 0 <= sin u) by (apply sin_ge_0; lra).
  destruct (Rlt_dec (sin u ^ 2) 0) as [H|_]; [nra|].
  rewrite sqrt_pow2 by exact Hs.
  destruct (Rlt_dec 1 (sin u)) as [H|_]; [pose proof (SIN_bound u); lra|].
  rewrite asin_sin by lra.
  unfold Ok, D_equator. fold u. reflexivity.
Qed.

(** ** The search: back-pointers follow edges and avoid water nodes *)

Section Search.
Variable G : graph.
Variable start_node : node.

Definition reached (cf : list (node * node)) (n : node) : Prop :=
  n = start_node \/ dget Nat.eqb cf n <> None.

(** Every back-pointer [came_from[n] = c] joins [c] to its neighbour
    [n], [n] is not a water node, and [c] was reached. *)
Definition cf_inv (cf : list (node * node)) : Prop :=
  forall n c, dget Nat.eqb cf n = Some c ->
    In n (neighbors G c) /\ non_water_node G n /\ reached cf c.

Definition search_inv (s : st) : Prop :=
  cf_inv (came_from s) /\ forall f n, In (f, n) (open_set s) -> reached (came_from s) n.

Lemma pq_select_in : forall l best m r,
    pq_select best l = (m, r) ->
    (m = best \/ In m l) /\ (forall x, In x r -> x = best \/ In x l).
Proof.
  induction l as [|e l IH]; intros best m r H; simpl in H.
  - inversion H; subst. split; [left; reflexivity|intros x []].
  - destruct (entry_lt e best).
    + destruct (pq_select e l) as [m' r'] eqn:E. inversion H; subst.
      destruct (IH _ _ _ E) as [Hm Hr]. split.
      * right. destruct Hm; [left; auto|right; auto].
      * intros x [<-|Hx]; [left; reflexivity|].
        destruct (Hr x Hx); [right; left; auto|right; right; auto].
    + destruct (pq_select best l) as [m' r'] eqn:E. inversion H; subst.
      destruct (IH _ _ _ E) as [Hm Hr]. split.
      * destruct Hm; [left; auto|right; right; auto].
      * intros x [<-|Hx]; [right; left; reflexivity|].
        destruct (Hr x Hx); [left; auto|right; right; auto].
Qed.

Lemma pq_get_in : forall l m r,
    pq_get l = Some (m, r) -> In m l /\ (forall x, In x r -> In x l).
Proof.
  intros [|e l] m r H; simpl in H; [discriminate|].
  inversion H as [H1].
  destruct (pq_select_in l e m r H1) as [Hm Hr]. split.
  - destruct Hm; [left; auto|right; auto].
  - intros x Hx. destruct (Hr x Hx); [left; auto|right; auto].
Qed.

Lemma reached_mono : forall cf n k v,
    reached cf n -> reached (dset Nat.eqb cf k v) n.
Proof.
  intros cf n k v [H|H]; [left; auto|right].
  rewrite nget_nset. destruct (Nat.eqb n k); congruence.
Qed.

Lemma relax_inv : forall heur current s nb s',
    relax heur G current s nb = Ok s' ->
    In nb (neighbors G current) ->
    reached (came_from s) current ->
    search_inv s ->
    search_inv s' /\ reached (came_from s') current.
Proof.
  intros heur current s nb s' Hr Hnb Hcur [Hcf Hopen].
  unfold relax in Hr.
  destruct (node_attrs G nb) as [e|nd] eqn:Hnd; [discriminate|]. simpl in Hr.
  destruct (is_water nd) eqn:Hw.
  { inversion Hr; subst. split; [split|]; assumption. }
  destruct (gindex (g_score s) current) as [e|gc]; [discriminate|]. simpl in Hr.
  destruct (as_number _) as [e|len]; [discriminate|]. simpl in Hr.
  destruct (gindex (g_score s) nb) as [e|gn]; [discriminate|]. simpl in Hr.
  destruct (ext_ltb _ gn).
  2:{ inversion Hr; subst. split; [split|]; assumption. }
  destruct (heur nb) as [e|hv]; [discriminate|]. simpl in Hr.
  assert (Hinv' : cf_inv (dset Nat.eqb (came_from s) nb current)).
  { intros n c Hn. rewrite nget_nset in Hn.
    destruct (Nat.eqb n nb) eqn:Enb.
    - apply Nat.eqb_eq in Enb; subst n. inversion Hn; subst c.
      split; [assumption|]. split; [exists nd; split; assumption|].
      apply reached_mono; assumption.
    - destruct (Hcf n c Hn) as [Ha [Hb Hc]].
      split; [assumption|]. split; [assumption|]. apply reached_mono; assumption. }
  assert (Hnbr : reached (dset Nat.eqb (came_from s) nb current) nb).
  { right. rewrite nget_nset, Nat.eqb_refl. discriminate. }
  destruct (mem nb (open_hash s)); inversion Hr; subst; simpl.
  - split; [split|].
    + assumption.
    + intros f n Hin. apply reached_mono. eapply Hopen; eauto.
    + apply reached_mono; assumption.
  - split; [split|].
    + assumption.
    + intros f n Hin. apply in_app_or in Hin as [Hin|[Heq|[]]].
      * apply reached_mono. eapply Hopen; eauto.
      * inversion Heq; subst. assumption.
    + apply reached_mono; assumption.
Qed.

Lemma expand_inv : forall heur current nbs s s',
    expand heur G current nbs s = Ok s' ->
    incl nbs (neighbors G current) ->
    reached (came_from s) current ->
    search_inv s ->
    search_inv s'.
Proof.
  intros heur current nbs. induction nbs as [|nb nbs IH]; intros s s' He Hincl Hcur Hinv;
    simpl in He.
  - inversion He; subst; assumption.
  - destruct (relax heur G current s nb) as [e|s1] eqn:Hr; [discriminate|]. simpl in He.
    destruct (relax_inv heur current s nb s1 Hr (Hincl nb (or_introl eq_refl)) Hcur Hinv)
      as [Hinv1 Hcur1].
    eapply IH; eauto. intros x Hx. apply Hincl. right. assumption.
Qed.

(** The reconstructed path: the start node, then back-pointer keys. *)
Lemma reconstruct_ok : forall fuel cf cur path p,
    reconstruct fuel cf start_node cur path = Ok p ->
    cf_inv cf ->
    reached cf cur ->
    Forall (non_water_node G) (rev path) ->
    path_adjacent G (rev path) ->
    (match rev path with [] => True | x :: _ => dget Nat.eqb cf x = Some cur end) ->
    exists rest, p = start_node :: rest /\ path_adjacent G p /\ Forall (non_water_node G) rest.
Proof.
  induction fuel as [|k IH]; intros cf cur path p Hr Hcf Hcur Hnw Hadj Hhd;
    simpl in Hr; [discriminate|].
  destruct (dget Nat.eqb cf cur) as [prev|] eqn:Hc.
  - destruct (Hcf cur prev Hc) as [Hnb [Hnwc Hrp]].
    eapply IH; [exact Hr|exact Hcf|exact Hrp|..]; rewrite rev_app_distr; simpl.
    + constructor; assumption.
    + destruct (rev path) as [|x rp] eqn:Erp; [exact I|].
      split; [|assumption]. destruct (Hcf x cur Hhd) as [Hin _]. exact Hin.
    + exact Hc.
  - inversion Hr; subst p. rewrite rev_app_distr. simpl.
    exists (rev path). split; [reflexivity|]. split; [|assumption].
    destruct Hcur as [Heq|Hne]; [|contradiction]. subst cur.
    destruct (rev path) as [|x rp]; [exact I|].
    split; [|assumption]. destruct (Hcf x start_node Hhd) as [Hin _]. exact Hin.
Qed.

Lemma search_ok : forall fuel heur exit_nodes s p,
    search fuel heur G exit_nodes start_node s = Ok (Some p) ->
    search_inv s ->
    exists rest, p = start_node :: rest /\ path_adjacent G p /\ Forall (non_water_node G) rest.
Proof.
  induction fuel as [|k IH]; intros heur exit_nodes s p Hs Hinv; cbn [search] in Hs;
    [discriminate|].
  destruct (pq_get (open_set s)) as [[[f current] rest]|] eqn:Hpq; [|discriminate].
  destruct (pq_get_in _ _ _ Hpq) as [Hm Hrest].
  destruct Hinv as [Hcf Hopen].
  destruct (set_remove current (open_hash s)) as [e|hash]; [discriminate|]. cbn [bind] in Hs.
  assert (Hinv1 : search_inv (mkSt rest hash (came_from s) (g_score s))).
  { split; [assumption|]. simpl. intros f' n Hin. eapply Hopen. apply Hrest. exact Hin. }
  assert (Hcur : reached (came_from s) current) by (eapply Hopen; exact Hm).
  destruct (mem current exit_nodes).
  - destruct (reconstruct _ _ _ _ _) as [e|path] eqn:Hrec; [discriminate|].
    cbn [bind] in Hs. inversion Hs; subst path.
    eapply reconstruct_ok; [exact Hrec|exact Hcf|exact Hcur|constructor|exact I|exact I].
  - destruct (expand _ _ _ _ _) as [e|s2] eqn:Hexp; [discriminate|]. cbn [bind] in Hs.
    eapply IH; [exact Hs|].
    eapply expand_inv; [exact Hexp|apply incl_refl|exact Hcur|exact Hinv1].
Qed.

Lemma init_state_inv : search_inv (init_state G start_node).
Proof.
  split.
  - intros n c H. discriminate.
  - intros f n [H|[]]. inversion H; subst. left; reflexivity.
Qed.
End Search.

(** The route returned by [a_star_evacuation] is empty ("already safe")
    or starts at the start node and then follows back-pointers. *)
Lemma a_star_route_shape : forall fuel G s c r p,
    a_star_evacuation fuel G (Some s) c r = Ok (Some p) ->
    p = [] \/
    exists rest, p = s :: rest /\ path_adjacent G p /\ Forall (non_water_node G) rest.
Proof.
  intros fuel G s c r p H. unfold a_star_evacuation in H.
  destruct (is_in_disaster_radius s c r G) as [e|inside]; [discriminate|]. simpl in H.
  destruct inside; simpl in H.
  2:{ inversion H; subst; left; reflexivity. }
  destruct (get_disaster_exit_nodes G c r) as [e|exits]; [discriminate|]. simpl in H.
  destruct exits as [|x xs]; [discriminate|].
  destruct (heuristic G (x :: xs) c r s) as [e|hv]; [discriminate|]. simpl in H.
  right. eapply search_ok; [exact H|apply init_state_inv].
Qed.

(** ** Exit-node discovery *)

Lemma set_add_in : forall n m s, In m (set_add n s) -> In m s \/ m = n.
Proof.
  intros n m s H. unfold set_add in H. destruct (mem n s); [left; exact H|].
  apply in_app_or in H as [H|[H|[]]]; [left|right]; auto.
Qed.

Lemma mem_in : forall n s, mem n s = true -> In n s.
Proof.
  intros n s H. unfold mem in H. apply existsb_exists in H as [x [Hx E]].
  apply Nat.eqb_eq in E. subst. exact Hx.
Qed.

Lemma classify_outside : forall ns c r ins outs ins' outs',
    classify_nodes ns c r ins outs = Ok (ins', outs') ->
    forall n, In n outs' -> In n outs \/ exists nd, In (n, nd) ns /\ is_water nd = false.
Proof.
  induction ns as [|[n0 nd0] ns IH]; intros c r ins outs ins' outs' H n Hn; simpl in H.
  - inversion H; subst. left; exact Hn.
  - destruct (amem nd0 "x" && amem nd0 "y").
    2:{ destruct (IH _ _ _ _ _ _ H n Hn) as [Ho|[nd [Hi Hw]]]; [left; exact Ho|].
        right; exists nd; split; [right|]; assumption. }
    destruct (is_water nd0) eqn:Hw0.
    { destruct (IH _ _ _ _ _ _ H n Hn) as [Ho|[nd [Hi Hw]]]; [left; exact Ho|].
      right; exists nd; split; [right|]; assumption. }
    destruct (aindex nd0 "y") as [e|y]; [discriminate|]. cbn [bind] in H.
    destruct (aindex nd0 "x") as [e|x]; [discriminate|]. cbn [bind] in H.
    destruct (haversine_val y x (fst c) (snd c)) as [e|d]; [discriminate|]. cbn [bind] in H.
    destruct (Rleb d r); [|destruct (Rleb d (r + buffer_distance))];
      destruct (IH _ _ _ _ _ _ H n Hn) as [Ho|[nd [Hi Hw]]];
      try (right; exists nd; split; [right|]; assumption);
      try (left; exact Ho).
    apply set_add_in in Ho as [Ho|Ho]; [left; exact Ho|].
    subst n. right. exists nd0. split; [left; reflexivity|exact Hw0].
Qed.

Lemma boundary_pairs_outside : forall G ins outs u nb,
    In (u, nb) (boundary_pairs G ins outs) -> In nb outs.
Proof.
  intros G ins outs u nb H. unfold boundary_pairs in H.
  apply in_flat_map in H as [u' [_ H]]. apply in_flat_map in H as [nb' [_ H]].
  destruct (mem nb' outs) eqn:Em; [|destruct H].
  cbn [andb] in H. destruct (negb _); [|destruct H].
  destruct H as [H|[]]. inversion H; subst. apply mem_in; exact Em.
Qed.

Lemma list_set_in : forall xs acc n,
    In n (fold_left (fun s m => set_add m s) xs acc) -> In n acc \/ In n xs.
Proof.
  induction xs as [|x xs IH]; intros acc n H; simpl in H.
  - left; exact H.
  - destruct (IH _ _ H) as [H1|H1].
    + apply set_add_in in H1 as [H1|H1]; [left; exact H1|subst; right; left; reflexivity].
    + right; right; exact H1.
Qed.

Lemma dget_nodup_in : forall (V : Type) (l : list (node * V)) k v,
    NoDup (map fst l) -> In (k, v) l -> dget Nat.eqb l k = Some v.
Proof.
  induction l as [|[k' v'] l IH]; intros k v Hnd Hin; [destruct Hin|].
  simpl in *. inversion Hnd as [|? ? Hnotin Hnd']; subst.
  destruct Hin as [Heq|Hin].
  - inversion Heq; subst. rewrite Nat.eqb_refl. reflexivity.
  - destruct (Nat.eqb k k') eqn:E.
    + apply Nat.eqb_eq in E; subst. exfalso. apply Hnotin.
      change k' with (fst (k', v)). apply in_map. exact Hin.
    + apply IH; assumption.
Qed.

Lemma score_candidate_some : forall G c r n p,
    score_candidate G c r n = Ok (Some p) -> fst p = n /\ non_water_node G n.
Proof.
  intros G c r n p H. unfold score_candidate in H.
  destruct (node_attrs G n) as [e|nd] eqn:Hnd; [discriminate|]. cbn [bind] in H.
  destruct (is_water nd) eqn:Hw; [discriminate|].
  destruct (aindex nd "y") as [e|y]; [discriminate|]. cbn [bind] in H.
  destruct (aindex nd "x") as [e|x]; [discriminate|]. cbn [bind] in H.
  destruct (haversine_val _ _ _ _) as [e|d]; [discriminate|]. cbn [bind] in H.
  inversion H; subst. split; [reflexivity|]. exists nd; split; assumption.
Qed.

Lemma score_candidate_none : forall G c r n,
    score_candidate G c r n = Ok None -> exists nd, node_attrs G n = Ok nd /\ is_water nd = true.
Proof.
  intros G c r n H. unfold score_candidate in H.
  destruct (node_attrs G n) as [e|nd] eqn:Hnd; [discriminate|]. cbn [bind] in H.
  destruct (is_water nd) eqn:Hw; [exists nd; split; [reflexivity|exact Hw]|].
  destruct (aindex nd "y") as [e|y]; [discriminate|]. cbn [bind] in H.
  destruct (aindex nd "x") as [e|x]; [discriminate|]. cbn [bind] in H.
  destruct (haversine_val _ _ _ _) as [e|d]; discriminate.
Qed.

Lemma score_all_in : forall G c r cands scored,
    score_all G c r cands = Ok scored ->
    Forall (fun p => score_candidate G c r (fst p) = Ok (Some p)) scored.
Proof.
  induction cands as [|n cands IH]; intros scored H; simpl in H.
  - inversion H; constructor.
  - destruct (score_candidate G c r n) as [e|o] eqn:Hs; [discriminate|]. cbn [bind] in H.
    destruct (score_all G c r cands) as [e|rest]; [discriminate|]. cbn [bind] in H.
    specialize (IH rest eq_refl).
    destruct o as [p|]; inversion H; subst; [|exact IH].
    constructor; [|exact IH].
    destruct (score_candidate_some _ _ _ _ _ Hs) as [Hf _]. rewrite Hf. exact Hs.
Qed.

Lemma score_all_nil : forall G c r n cands,
    score_all G c r (n :: cands) = Ok [] -> score_candidate G c r n = Ok None.
Proof.
  intros G c r n cands H. simpl in H.
  destruct (score_candidate G c r n) as [e|o]; [discriminate|]. cbn [bind] in H.
  destruct (score_all G c r cands) as [e|rest]; [discriminate|]. cbn [bind] in H.
  destruct o; [discriminate|reflexivity].
Qed.

Lemma insert_desc_in : forall x l y, In y (insert_desc x l) -> y = x \/ In y l.
Proof.
  induction l as [|z l IH]; intros y H; simpl in H.
  - destruct H as [H|[]]; left; auto.
  - destruct (Rltb (snd z) (snd x)).
    + destruct H as [H|H]; [left; auto|right; exact H].
    + destruct H as [H|H]; [right; left; exact H|].
      destruct (IH y H); [left|right; right]; assumption.
Qed.

Lemma sorted_desc_cons : forall a l,
    sorted_desc (a :: l) <-> sorted_desc l /\ (match l with [] => True | b :: _ => b <= a end).
Proof.
  intros a [|b l]; simpl; tauto.
Qed.

Lemma insert_desc_sorted : forall x l,
    sorted_desc (map snd l) -> sorted_desc (map snd (insert_desc x l)).
Proof.
  induction l as [|z l IH]; intros H; simpl; [exact I|].
  unfold Rltb. destruct (Rlt_dec (snd z) (snd x)) as [Hlt|Hge].
  - simpl. split; [lra|exact H].
  - simpl map. apply sorted_desc_cons in H as [Hl Hz].
    apply sorted_desc_cons. split; [apply IH; exact Hl|].
    destruct l as [|w l]; simpl.
    + lra.
    + simpl in Hz. unfold Rltb. destruct (Rlt_dec (snd w) (snd x)); simpl; lra.
Qed.

Lemma sort_desc_spec : forall l acc,
    sorted_desc (map snd acc) ->
    sorted_desc (map snd (fold_left (fun acc x => insert_desc x acc) l acc)) /\
    (forall y, In y (fold_left (fun acc x => insert_desc x acc) l acc) -> In y acc \/ In y l).
Proof.
  induction l as [|x l IH]; intros acc Hs; simpl.
  - split; [exact Hs|intros y Hy; left; exact Hy].
  - destruct (IH (insert_desc x acc) (insert_desc_sorted x acc Hs)) as [H1 H2].
    split; [exact H1|]. intros y Hy. destruct (H2 y Hy) as [Hy'|Hy'].
    + destruct (insert_desc_in x acc y Hy'); [right; left; auto|left; assumption].
    + right; right; exact Hy'.
Qed.

Lemma sorted_desc_firstn : forall k l, sorted_desc l -> sorted_desc (firstn k l).
Proof.
  induction k as [|k IH]; intros l H; [exact I|].
  destruct l as [|a l]; [exact I|]. simpl firstn.
  apply sorted_desc_cons in H as [Hl Ha]. apply sorted_desc_cons. split; [apply IH; exact Hl|].
  destruct k; [exact I|]. destruct l; [exact I|]. exact Ha.
Qed.

Lemma in_firstn' : forall {A} k (l : list A) x, In x (firstn k l) -> In x l.
Proof.
  intros A k l x H. rewrite <- (firstn_skipn k l). apply in_or_app. left; exact H.
Qed.

Lemma insert_desc_complete : forall x l y, y = x \/ In y l -> In y (insert_desc x l).
Proof.
  induction l as [|z l IH]; intros y H; simpl.
  - destruct H as [H|[]]; left; auto.
  - destruct (Rltb (snd z) (snd x)).
    + destruct H as [H|H]; [left; auto|right; exact H].
    + destruct H as [H|[H|H]]; [right; apply IH; left; exact H|left; exact H|].
      right; apply IH; right; exact H.
Qed.

Lemma sort_desc_complete : forall l y, In y l -> In y (sort_desc l).
Proof.
  intros l. unfold sort_desc. generalize (@nil (node * R)) as acc.
  induction l as [|x l IH]; intros acc y H; [destruct H|]. simpl.
  destruct H as [H|H].
  - subst. assert (Hk : forall l' acc' y', In y' acc' ->
              In y' (fold_left (fun acc x => insert_desc x acc) l' acc')).
    { induction l' as [|x' l' IH']; intros acc' y' Hy; simpl; [exact Hy|].
      apply IH'. apply insert_desc_complete. right; exact Hy. }
    apply Hk. apply insert_desc_complete. left; reflexivity.
  - apply IH; exact H.
Qed.

(** ** The annotator on the heap *)

Lemma copy_nodes_list : forall h ns, copy_nodes h ns = copy_list h ns.
Proof.
  intros h ns; revert h; induction ns as [|[n l] ns IH]; intros h; [reflexivity|].
  simpl. rewrite IH. reflexivity.
Qed.

Lemma copy_edges_list : forall h es, copy_edges h es = copy_list h es.
Proof.
  intros h es; revert h; induction es as [|[[u v] l] es IH]; intros h; [reflexivity|].
  simpl. rewrite IH. reflexivity.
Qed.

Lemma copy_list_spec : forall K h (xs : list (K * loc)) h1 xs',
    copy_list h xs = (h1, xs') ->
    map fst xs' = map fst xs /\
    map snd xs' = seq (h_next h) (List.length xs) /\
    h_next h1 = (h_next h + List.length xs)%nat /\
    (forall l, (l < h_next h)%nat -> h_store h1 l = h_store h l) /\
    (forall i k l, nth_error xs i = Some (k, l) -> (l < h_next h)%nat ->
                   read h1 (h_next h + i)%nat = read h l).
Proof.
  intros K h xs; revert h; induction xs as [|[k l] xs IH]; intros h h1 xs' H.
  - simpl in H. inversion H; subst. cbn. repeat split; try lia; auto.
    intros [|i]; discriminate.
  - cbn [copy_list] in H. unfold alloc in H.
    destruct (copy_list (mkHeap (upd (h_store h) (h_next h) (read h l)) (S (h_next h))) xs)
      as [h2 xs''] eqn:Hc.
    inversion H; subst h2 xs'.
    destruct (IH _ _ _ Hc) as [E1 [E2 [E3 [E4 E5]]]]. cbn [h_next] in E3, E4, E5.
    repeat split.
    + simpl. f_equal. exact E1.
    + simpl. f_equal. exact E2.
    + rewrite E3. simpl. lia.
    + intros l0 Hl0. rewrite E4 by lia. cbn [h_store]. unfold upd.
      destruct (Nat.eqb l0 (h_next h)) eqn:E; [apply Nat.eqb_eq in E; lia|reflexivity].
    + intros [|i] k0 l0 Hi Hl0; simpl in Hi.
      * inversion Hi; subst k0 l0. rewrite Nat.add_0_r.
        unfold read at 1. rewrite E4 by lia. cbn [h_store]. unfold upd.
        rewrite Nat.eqb_refl. reflexivity.
      * replace (h_next h + S i)%nat with (S (h_next h) + i)%nat by lia.
        rewrite (E5 i k0 l0 Hi) by lia. unfold read at 1. cbn [h_store]. unfold upd.
        destruct (Nat.eqb l0 (h_next h)) eqn:E; [apply Nat.eqb_eq in E; lia|reflexivity].
Qed.

Lemma read_write_same : forall h l d, read (write h l d) l = d.
Proof. intros. unfold read, write, upd. cbn. rewrite Nat.eqb_refl. reflexivity. Qed.

Lemma read_write_other : forall h l l' d, l' <> l -> read (write h l d) l' = read h l'.
Proof.
  intros h l l' d Hne. unfold read, write, upd. cbn.
  destruct (Nat.eqb l' l) eqn:E; [apply Nat.eqb_eq in E; contradiction|reflexivity].
Qed.

Lemma store_write_other : forall h l l' d, l' <> l -> h_store (write h l d) l' = h_store h l'.
Proof.
  intros h l l' d Hne. unfold write, upd. cbn.
  destruct (Nat.eqb l' l) eqn:E; [apply Nat.eqb_eq in E; contradiction|reflexivity].
Qed.

Lemma has_is_water_write : forall h l l' d b,
    aget d "is_water" = Some (VBool b) ->
    l' = l \/ has_is_water h l' -> has_is_water (write h l d) l'.
Proof.
  intros h l l' d b Hd H. destruct (Nat.eq_dec l' l) as [->|Hne].
  - exists b. rewrite read_write_same. exact Hd.
  - destruct H as [H|H]; [contradiction|]. unfold has_is_water. rewrite read_write_other by exact Hne.
    exact H.
Qed.

Lemma mark_nodes_next : forall ns h, h_next (mark_nodes h ns) = h_next h.
Proof.
  induction ns as [|[n l] ns IH]; intros h; [reflexivity|]. cbn [mark_nodes]. rewrite IH. reflexivity.
Qed.

Lemma mark_nodes_frame : forall ns h l, ~ In l (map snd ns) ->
    h_store (mark_nodes h ns) l = h_store h l.
Proof.
  induction ns as [|[n l0] ns IH]; intros h l Hl; [reflexivity|]. cbn [mark_nodes].
  simpl in Hl. rewrite IH by tauto. apply store_write_other. intro; subst; tauto.
Qed.

Lemma mark_nodes_has : forall ns h l, In l (map snd ns) \/ has_is_water h l ->
    has_is_water (mark_nodes h ns) l.
Proof.
  induction ns as [|[n l0] ns IH]; intros h l H; cbn [mark_nodes].
  - destruct H as [[]|H]; exact H.
  - simpl in H. apply IH.
    destruct H as [[H|H]|H]; [right|left; exact H|right].
    + eapply has_is_water_write; [apply aget_aset_same|left; auto].
    + eapply has_is_water_write; [apply aget_aset_same|right; exact H].
Qed.

Lemma edge_annot_has : forall d nu nv, exists b, aget (edge_annot d nu nv) "is_water" = Some (VBool b).
Proof.
  intros d nu nv. unfold edge_annot. cbv zeta.
  destruct ((nu || nv) && negb (is_bridge d));
    destruct (existsb _ _); try destruct (negb (is_bridge d));
    eexists; apply aget_aset_same.
Qed.

Lemma edge_annot_bridge : forall d nu nv, is_bridge d = true ->
    edge_annot d nu nv = aset d "is_water" (VBool false).
Proof.
  intros d nu nv Hb. unfold edge_annot. rewrite Hb. cbn [negb]. rewrite Bool.andb_false_r.
  destruct (existsb _ _); reflexivity.
Qed.

Ltac mark_edges_step H :=
  cbn [mark_edges] in H;
  match type of H with
  | context [node_loc ?ns ?u] =>
      destruct (node_loc ns u) as [?e|?lu]; [discriminate|]; cbn [bind Ok] in H
  end;
  match type of H with
  | context [node_loc ?ns ?v] =>
      destruct (node_loc ns v) as [?e|?lv]; [discriminate|]; cbn [bind Ok] in H
  end.

Lemma mark_edges_next : forall ns es h h', mark_edges ns h es = Ok h' -> h_next h' = h_next h.
Proof.
  intros ns es; induction es as [|[[u v] l] es IH]; intros h h' H.
  - inversion H; reflexivity.
  - mark_edges_step H. rewrite (IH _ _ H). reflexivity.
Qed.

Lemma mark_edges_frame : forall ns es h h', mark_edges ns h es = Ok h' ->
    forall l, ~ In l (map snd es) -> h_store h' l = h_store h l.
Proof.
  intros ns es; induction es as [|[[u v] l0] es IH]; intros h h' H l Hl.
  - inversion H; reflexivity.
  - mark_edges_step H. simpl in Hl. rewrite (IH _ _ H) by tauto.
    apply store_write_other. intro; subst; tauto.
Qed.

Lemma mark_edges_has : forall ns es h h', mark_edges ns h es = Ok h' ->
    forall l, In l (map snd es) \/ has_is_water h l -> has_is_water h' l.
Proof.
  intros ns es; induction es as [|[[u v] l0] es IH]; intros h h' H l Hl.
  - inversion H; subst. destruct Hl as [[]|Hl]; exact Hl.
  - mark_edges_step H. simpl in Hl. apply (IH _ _ H).
    match goal with |- context [write h l0 ?d] =>
      destruct (edge_annot_has (read h l0) (is_water (read h lu)) (is_water (read h lv))) as [b Hb]
    end.
    destruct Hl as [[Hl|Hl]|Hl]; [right|left; exact Hl|right].
    + eapply has_is_water_write; [exact Hb|left; auto].
    + eapply has_is_water_write; [exact Hb|right; exact Hl].
Qed.

Lemma mark_edges_final : forall ns es h h', mark_edges ns h es = Ok h' ->
    NoDup (map snd es) ->
    forall i u v l, nth_error es i = Some (u, v, l) ->
    exists nu nv, read h' l = edge_annot (read h l) nu nv.
Proof.
  intros ns es; induction es as [|[[u0 v0] l0] es IH]; intros h h' H Hnd i u v l Hi.
  - destruct i; discriminate.
  - mark_edges_step H. simpl in Hnd. inversion Hnd as [|? ? Hnotin Hnd']; subst.
    destruct i as [|i]; simpl in Hi.
    + inversion Hi; subst u0 v0 l0.
      exists (is_water (read h lu)), (is_water (read h lv)).
      unfold read at 1. rewrite (mark_edges_frame _ _ _ _ H l Hnotin).
      fold (read (write h l (edge_annot (read h l) (is_water (read h lu)) (is_water (read h lv)))) l).
      apply read_write_same.
    + destruct (IH _ _ H Hnd' i u v l Hi) as [nu [nv E]]. exists nu, nv. rewrite E.
      rewrite read_write_other; [reflexivity|].
      intro; subst l0. apply Hnotin. change l with (snd (u, v, l)). apply in_map.
      eapply nth_error_In; exact Hi.
Qed.

Lemma nth_error_fst_snd : forall (A B : Type) (xs : list (A * B)) i a b,
    nth_error (map fst xs) i = Some a -> nth_error (map snd xs) i = Some b ->
    nth_error xs i = Some (a, b).
Proof.
  intros A B xs i a b H1 H2. rewrite nth_error_map in H1, H2.
  destruct (nth_error xs i) as [[x y]|]; simpl in *; [|discriminate].
  inversion H1; inversion H2; subst; reflexivity.
Qed.

(** What [filter_road_network] does to the heap: the copy lives in
    fresh locations (nodes from [h_next h], edges right after them),
    every location below [h_next h] keeps its content, every copied
    dictionary holds an [is_water] flag, and the final dictionary of
    the [i]-th copied edge is [edge_annot] of the [i]-th source edge's
    dictionary. *)
Lemma filter_road_network_facts : forall h G h' G',
    filter_road_network h G = Ok (h', G') ->
    (forall u v l, In (u, v, l) (hg_edges G) -> (l < h_next h)%nat) ->
    map fst (hg_nodes G') = map fst (hg_nodes G) /\
    map snd (hg_nodes G') = seq (h_next h) (List.length (hg_nodes G)) /\
    map fst (hg_edges G') = map fst (hg_edges G) /\
    map snd (hg_edges G') =
      seq (h_next h + List.length (hg_nodes G)) (List.length (hg_edges G)) /\
    (forall l, (l < h_next h)%nat -> h_store h' l = h_store h l) /\
    (forall l, In l (map snd (hg_nodes G')) \/ In l (map snd (hg_edges G')) ->
               has_is_water h' l) /\
    (forall i u v l, nth_error (hg_edges G) i = Some (u, v, l) ->
       exists nu nv,
         nth_error (hg_edges G') i = Some (u, v, h_next h + List.length (hg_nodes G) + i)%nat /\
         read h' (h_next h + List.length (hg_nodes G) + i)%nat = edge_annot (read h l) nu nv).
Proof.
  intros h G h' G' H Hwf. unfold filter_road_network, graph_copy in H.
  rewrite copy_nodes_list in H.
  destruct (copy_list h (hg_nodes G)) as [h1 ns] eqn:Hn.
  cbv beta iota in H. rewrite copy_edges_list in H.
  destruct (copy_list h1 (hg_edges G)) as [h2 es] eqn:He.
  cbn [hg_nodes hg_edges] in H.
  destruct (mark_edges ns (mark_nodes h2 ns) es) as [e|h3] eqn:Hm; [discriminate|].
  cbn [bind Ok] in H. inversion H; subst h' G'. clear H. cbn [hg_nodes hg_edges].
  destruct (copy_list_spec _ _ _ _ _ Hn) as [N1 [N2 [N3 [N4 N5]]]].
  destruct (copy_list_spec _ _ _ _ _ He) as [E1 [E2 [E3 [E4 E5]]]].
  rewrite N3 in E2, E3, E4, E5.
  set (N := h_next h) in *. set (k := List.length (hg_nodes G)) in *.
  assert (Hnode_loc : forall l, In l (map snd ns) -> (N <= l < N + k)%nat).
  { intros l Hl. rewrite N2 in Hl. apply in_seq in Hl. exact Hl. }
  assert (Hedge_loc : forall l, In l (map snd es) -> (N + k <= l)%nat).
  { intros l Hl. rewrite E2 in Hl. apply in_seq in Hl. lia. }
  assert (Hstore3 : forall l, (N + k <= l)%nat -> h_store (mark_nodes h2 ns) l = h_store h2 l).
  { intros l Hl. apply mark_nodes_frame. intro Hin. apply Hnode_loc in Hin. lia. }
  split; [exact N1|]. split; [exact N2|]. split; [exact E1|]. split; [exact E2|].
  split; [|split].
  - intros l Hl.
    rewrite (mark_edges_frame _ _ _ _ Hm l) by (intro Hin; apply Hedge_loc in Hin; lia).
    rewrite mark_nodes_frame by (intro Hin; apply Hnode_loc in Hin; lia).
    rewrite E4 by lia. apply N4; exact Hl.
  - intros l [Hl|Hl]; apply (mark_edges_has _ _ _ _ Hm).
    + right. apply mark_nodes_has. left; exact Hl.
    + left; exact Hl.
  - intros i u v l Hi.
    assert (Hlt : (i < List.length (hg_edges G))%nat).
    { apply nth_error_Some. rewrite Hi. discriminate. }
    assert (Hes : nth_error es i = Some (u, v, N + k + i)%nat).
    { apply nth_error_fst_snd.
      - transitivity (nth_error (map fst (hg_edges G)) i); [f_equal; exact E1|].
        rewrite nth_error_map, Hi. reflexivity.
      - transitivity (nth_error (seq (N + k) (List.length (hg_edges G))) i); [f_equal; exact E2|].
        rewrite nth_error_seq. apply Nat.ltb_lt in Hlt. rewrite Hlt. reflexivity. }
    destruct (mark_edges_final _ _ _ _ Hm) with (i := i) (u := u) (v := v) (l := (N + k + i)%nat)
      as [nu [nv Hfin]]; [rewrite E2; apply seq_NoDup|exact Hes|].
    exists nu, nv. split; [exact Hes|]. rewrite Hfin. f_equal.
    unfold read at 1. rewrite Hstore3 by lia. fold (read h2 (N + k + i)%nat).
    assert (Hl : (l < N)%nat) by (apply (Hwf u v); eapply nth_error_In; exact Hi).
    rewrite (E5 i (u, v) l Hi) by lia.
    unfold read. rewrite N4 by exact Hl. reflexivity.
Qed.

(** ** Concrete runs *)

Arguments haversine_distance : simpl never.
Arguments Rleb : simpl never.
Arguments Rltb : simpl never.

Lemma Rleb_true : forall a b, a <= b -> Rleb a b = true.
Proof. intros. unfold Rleb. destruct (Rle_dec a b); [reflexivity|contradiction]. Qed.

Lemma Rleb_false : forall a b, b < a -> Rleb a b = false.
Proof. intros. unfold Rleb. destruct (Rle_dec a b); [lra|reflexivity]. Qed.

(** One round of evaluation: reduce, replace the known distances, and
    decide the comparisons against the radius. *)
Ltac run_step :=
  cbn;
  rewrite ?haversine_same, ?haversine_equator;
  repeat match goal with
  | |- context [Rleb ?a ?b] =>
      first [ rewrite (Rleb_true a b) by (unfold buffer_distance; pose proof D_equator_bounds; lra)
            | rewrite (Rleb_false a b) by (unfold buffer_distance; pose proof D_equator_bounds; lra) ]
  end.

Lemma exits_water_start : get_disaster_exit_nodes G_water_start (0, 0) 100 = Ok [2%nat].
Proof.
  unfold get_disaster_exit_nodes. do 3 run_step.
  unfold score_all, score_candidate. do 3 run_step. reflexivity.
Qed.

Lemma route_water_start :
  a_star_evacuation 2 G_water_start (Some 0%nat) (0, 0) 100 = Ok (Some [0%nat; 2%nat]).
Proof.
  do 4 run_step. rewrite exits_water_start. do 3 run_step.
  unfold min_exit_distance, haversine_val. do 3 run_step. reflexivity.
Qed.

(** ** Claims about the pathfinder *)

(** C1 (counterexample): the start node is never checked, so a route
    from a water node starts with that water node. Here node 0 is flagged
    [is_water] and the route is [[0; 2]]. *)
Lemma C1_route_from_water_start :
  a_star_evacuation 2 G_water_start (Some 0%nat) (0, 0) 100 = Ok (Some [0%nat; 2%nat]) /\
  ~ non_water_node G_water_start 0%nat.
Proof.
  split; [exact route_water_start|].
  intros [nd [H1 H2]]. cbn in H1. inversion H1; subst nd. discriminate.
Qed.

(** C1 (amended): a route returned by [a_star_evacuation] is empty, or it
    starts at the start node and every later node is a node of the
    network not flagged [is_water]; the start node itself is not checked. *)
Theorem a_star_route_avoids_water : forall fuel G s c r p,
    a_star_evacuation fuel G (Some s) c r = Ok (Some p) ->
    p = [] \/ exists rest, p = s :: rest /\ Forall (non_water_node G) rest.
Proof.
  intros fuel G s c r p H.
  destruct (a_star_route_shape fuel G s c r p H) as [Hp|[rest [Hp [_ Hnw]]]].
  - left; exact Hp.
  - right; exists rest; split; assumption.
Qed.

Lemma a_star_route_avoids_water_witness :
  a_star_evacuation 2 G_water_start (Some 0%nat) (0, 0) 100 = Ok (Some [0%nat; 2%nat]) /\
  ([0%nat; 2%nat] = [] \/ exists rest, [0%nat; 2%nat] = 0%nat :: rest /\
                                   Forall (non_water_node G_water_start) rest).
Proof.
  split; [exact route_water_start|].
  apply (a_star_route_avoids_water 2 G_water_start 0%nat (0, 0) 100).
  exact route_water_start.
Defined.

(** C10: consecutive nodes of a route returned by [a_star_evacuation]
    are adjacent in the road network. *)
Theorem a_star_route_follows_edges : forall fuel G start c r p,
    a_star_evacuation fuel G start c r = Ok (Some p) ->
    path_adjacent G p.
Proof.
  intros fuel G [s|] c r p H.
  - destruct (a_star_route_shape fuel G s c r p H) as [Hp|[rest [_ [Hadj _]]]].
    + subst p; exact I.
    + exact Hadj.
  - discriminate.
Qed.

Lemma a_star_route_follows_edges_witness :
  a_star_evacuation 2 G_water_start (Some 0%nat) (0, 0) 100 = Ok (Some [0%nat; 2%nat]) /\
  path_adjacent G_water_start [0%nat; 2%nat].
Proof.
  split; [exact route_water_start|].
  apply (a_star_route_follows_edges 2 G_water_start (Some 0%nat) (0, 0) 100).
  exact route_water_start.
Defined.

(** C3: the early exits of [a_star_evacuation], in order, before any
    search: no start node gives [None]; a start node outside the radius
    gives [[]]; no exit node gives [None]; otherwise the A* search runs. *)
Theorem a_star_early_exits : forall fuel G c r,
    a_star_evacuation fuel G None c r = Ok None /\
    forall s,
      (is_in_disaster_radius s c r G = Ok false ->
       a_star_evacuation fuel G (Some s) c r = Ok (Some [])) /\
      (is_in_disaster_radius s c r G = Ok true ->
       get_disaster_exit_nodes G c r = Ok [] ->
       a_star_evacuation fuel G (Some s) c r = Ok None) /\
      (forall e es,
       is_in_disaster_radius s c r G = Ok true ->
       get_disaster_exit_nodes G c r = Ok (e :: es) ->
       a_star_evacuation fuel G (Some s) c r =
         (let heur := heuristic G (e :: es) c r in
          let* _ := heur s in
          search fuel heur G (e :: es) s (init_state G s))).
Proof.
  intros fuel G c r. split; [reflexivity|].
  intros s. unfold a_star_evacuation. split; [|split].
  - intros H. rewrite H. reflexivity.
  - intros H1 H2. rewrite H1. cbn [bind negb]. rewrite H2. reflexivity.
  - intros e es H1 H2. rewrite H1. cbn [bind negb]. rewrite H2. reflexivity.
Qed.

Lemma is_in_water_start : is_in_disaster_radius 0%nat (0, 0) 100 G_water_start = Ok true.
Proof. unfold is_in_disaster_radius. do 2 run_step. reflexivity. Qed.

Lemma a_star_early_exits_witness :
  is_in_disaster_radius 0%nat (0, 0) 100 G_water_start = Ok true /\
  get_disaster_exit_nodes G_water_start (0, 0) 100 = Ok [2%nat] /\
  a_star_evacuation 2 G_water_start (Some 0%nat) (0, 0) 100 =
    (let heur := heuristic G_water_start [2%nat] (0, 0) 100 in
     let* _ := heur 0%nat in
     search 2 heur G_water_start [2%nat] 0%nat (init_state G_water_start 0%nat)).
Proof.
  split; [exact is_in_water_start|]. split; [exact exits_water_start|].
  destruct (a_star_early_exits 2 G_water_start (0, 0) 100) as [_ H].
  destruct (H 0%nat) as [_ [_ H3]].
  apply H3; [exact is_in_water_start|exact exits_water_start].
Defined.

(** C4 (failing input): a start node without coordinates makes
    [is_in_disaster_radius] index [node['y']] and raise [KeyError]. *)
Theorem a_star_no_coords_raises : forall fuel,
    a_star_evacuation fuel G_no_coords (Some 0%nat) (0, 0) 100 = Err KeyError.
Proof. intros fuel. reflexivity. Qed.

Lemma Rleb_iff : forall a b, Rleb a b = true <-> a <= b.
Proof.
  intros a b. unfold Rleb. destruct (Rle_dec a b); split; intros; auto; discriminate || contradiction.
Qed.

Lemma Ok_Rleb_iff : forall a b, (Ok (Rleb a b) : except bool) = Ok true <-> a <= b.
Proof.
  intros a b. rewrite <- Rleb_iff. split; intros E; [inversion E|rewrite E]; reflexivity.
Qed.

(** C6: the membership tests compare the haversine distance to the
    radius with [<=]; at distance exactly the radius the start node is
    inside, so [a_star_evacuation] does not answer "already safe". *)
Theorem hazard_membership_inclusive :
  (forall p c r d,
      haversine_distance (fst p) (snd p) (fst c) (snd c) = Ok d ->
      (check_if_in_radius p c r = Ok true <-> d <= r)) /\
  (forall G s c r nd y x d,
      node_attrs G s = Ok nd ->
      aget nd "y" = Some (VNum y) ->
      aget nd "x" = Some (VNum x) ->
      haversine_distance y x (fst c) (snd c) = Ok d ->
      (is_in_disaster_radius s c r G = Ok true <-> d <= r) /\
      (d = r -> forall fuel, a_star_evacuation fuel G (Some s) c r <> Ok (Some []))).
Proof.
  split.
  - intros p c r d H. unfold check_if_in_radius. rewrite H. cbn [bind].
    apply Ok_Rleb_iff.
  - intros G s c r nd y x d Hnd Hy Hx Hd.
    assert (Hin : is_in_disaster_radius s c r G = Ok (Rleb d r)).
    { unfold is_in_disaster_radius, aindex. rewrite Hnd. cbn [bind Ok].
      rewrite Hy, Hx. cbn [bind Ok]. unfold haversine_val. cbn [as_number bind Ok]. rewrite Hd.
      reflexivity. }
    split.
    + rewrite Hin. apply Ok_Rleb_iff.
    + intros Heq fuel Hr. subst r.
      assert (Ht : Rleb d d = true) by (apply Rleb_iff; lra).
      unfold a_star_evacuation in Hr. rewrite Hin, Ht in Hr. cbn [bind negb] in Hr.
      destruct (get_disaster_exit_nodes G c d) as [e|exits]; [discriminate|].
      cbn [bind] in Hr. destruct exits as [|e es]; [discriminate|].
      destruct (heuristic G (e :: es) c d s) as [e'|hv]; [discriminate|]. cbn [bind] in Hr.
      destruct (search_ok G s fuel _ _ _ [] Hr (init_state_inv G s)) as [rest [Hp _]].
      discriminate.
Qed.

Lemma hazard_membership_inclusive_witness :
  check_if_in_radius (0, 0) (0, 0) 0 = Ok true /\
  forall fuel, a_star_evacuation fuel G_water_start (Some 1%nat) (0, 0) 0 <> Ok (Some []).
Proof.
  destruct hazard_membership_inclusive as [H1 H2]. split.
  - apply (H1 (0, 0) (0, 0) 0 0); [exact (haversine_same 0 0)|lra].
  - apply (H2 G_water_start 1%nat (0, 0) 0
              [("y", VNum 0); ("x", VNum 0); ("is_water", VBool false)]%string 0 0 0);
      [reflexivity|reflexivity|reflexivity|exact (haversine_same 0 0)|reflexivity].
Defined.

(** C8: a relaxation that improves [g_score[neighbor]] sets it to
    [g_score[current]] plus the edge length times the water penalty:
    10000 on an edge flagged [is_water], 1 otherwise, with length 100
    when the edge has no [length]. *)
Theorem relax_edge_cost : forall heur G current s nb s',
    relax heur G current s nb = Ok s' ->
    dget Nat.eqb (g_score s') nb <> dget Nat.eqb (g_score s) nb ->
    exists gc len,
      dget Nat.eqb (g_score s) current = Some gc /\
      (match aget (get_edge_data G current nb) "length" with
       | Some v => as_number v
       | None => Ok 100
       end) = Ok len /\
      dget Nat.eqb (g_score s') nb =
        Some (ext_add gc (Fin (len * (if is_water (get_edge_data G current nb)
                                     then 10000 else 1)))).
Proof.
  intros heur G current s nb s' Hr Hne. unfold relax in Hr.
  destruct (node_attrs G nb) as [e|nd]; [discriminate|]. cbn [bind Ok] in Hr.
  destruct (is_water nd).
  { inversion Hr; subst; contradiction. }
  unfold gindex at 1 in Hr.
  destruct (dget Nat.eqb (g_score s) current) as [gc|] eqn:Hgc; [|discriminate].
  cbn [bind Ok] in Hr.
  destruct (as_number (aget_or (get_edge_data G current nb) "length" (VNum 100)))
    as [e|len] eqn:Hlen; [discriminate|]. cbn [bind Ok] in Hr.
  destruct (gindex (g_score s) nb) as [e|gn]; [discriminate|]. cbn [bind Ok] in Hr.
  destruct (ext_ltb _ gn).
  2:{ inversion Hr; subst; contradiction. }
  destruct (heur nb) as [e|hv]; [discriminate|]. cbn [bind Ok] in Hr.
  exists gc, len. split; [reflexivity|]. split.
  - unfold aget_or, dget_or in Hlen. unfold aget.
    destruct (dget String.eqb (get_edge_data G current nb) "length"%string); exact Hlen.
  - destruct (mem nb (open_hash s)); inversion Hr; subst; cbn [g_score];
      rewrite nget_nset, Nat.eqb_refl; reflexivity.
Qed.

Lemma relax_edge_cost_witness :
  exists s',
    relax (fun _ => Ok (Fin 0)) G_water_start 0%nat (init_state G_water_start 0%nat) 2%nat = Ok s' /\
    exists gc len,
      dget Nat.eqb (g_score (init_state G_water_start 0%nat)) 0%nat = Some gc /\
      (match aget (get_edge_data G_water_start 0%nat 2%nat) "length" with
       | Some v => as_number v
       | None => Ok 100
       end) = Ok len /\
      dget Nat.eqb (g_score s') 2%nat =
        Some (ext_add gc (Fin (len * (if is_water (get_edge_data G_water_start 0%nat 2%nat)
                                     then 10000 else 1)))).
Proof.
  eexists. split; [reflexivity|].
  apply (relax_edge_cost (fun _ => Ok (Fin 0)) G_water_start 0%nat
           (init_state G_water_start 0%nat) 2%nat); [reflexivity|].
  cbn. discriminate.
Defined.

(** C7: [get_disaster_exit_nodes] returns at most [max_exit_nodes] = 10
    nodes, listed by score highest first, each one a non-water node of
    [G]; the single-candidate fallback never returns a water node (it is
    only reachable when no candidate scored, which cannot happen since
    every candidate is a dry outside node). Python's node dict has unique
    keys, hence [NoDup]. *)
Theorem exit_nodes_ok : forall G c r exits,
    NoDup (map fst (g_nodes G)) ->
    get_disaster_exit_nodes G c r = Ok exits ->
    (List.length exits <= 10)%nat /\
    Forall (non_water_node G) exits /\
    exists scored, exits = map fst scored /\ sorted_desc (map snd scored) /\
      Forall (fun p => score_candidate G c r (fst p) = Ok (Some p)) scored.
Proof.
  intros G c r exits Hnd H. unfold get_disaster_exit_nodes in H.
  destruct (classify_nodes (g_nodes G) c r [] []) as [e|[ins outs]] eqn:Hc; [discriminate|].
  cbn [bind Ok] in H.
  destruct (score_all G c r (list_set (map snd (boundary_pairs G ins outs))))
    as [e|scored] eqn:Hs; [discriminate|].
  cbn [bind Ok] in H.
  pose proof (score_all_in _ _ _ _ _ Hs) as Hsc.
  destruct (sort_desc_spec scored [] I) as [Hsorted Hin].
  fold (sort_desc scored) in Hsorted, Hin.
  assert (Hfin : Forall (fun p => score_candidate G c r (fst p) = Ok (Some p))
                   (firstn max_exit_nodes (sort_desc scored))).
  { apply Forall_forall. intros p Hp. apply in_firstn' in Hp.
    destruct (Hin p Hp) as [[]|Hp']. rewrite Forall_forall in Hsc. apply Hsc; exact Hp'. }
  assert (Hgood : exits = map fst (firstn max_exit_nodes (sort_desc scored))).
  { destruct (map fst (firstn max_exit_nodes (sort_desc scored))) as [|x xs] eqn:Ee;
      [|inversion H; reflexivity].
    destruct (list_set (map snd (boundary_pairs G ins outs))) as [|c0 cs] eqn:Ec;
      [inversion H; reflexivity|].
    exfalso.
    (* the first candidate is a dry outside node, so it scored *)
    assert (Hc0 : In c0 (map snd (boundary_pairs G ins outs))).
    { unfold list_set in Ec.
      destruct (list_set_in (map snd (boundary_pairs G ins outs)) [] c0) as [[]|Hc0];
        [rewrite Ec; left; reflexivity|exact Hc0]. }
    apply in_map_iff in Hc0 as [[u nb] [Hnb Hbp]]. cbn [snd] in Hnb. subst nb.
    apply boundary_pairs_outside in Hbp.
    destruct (classify_outside _ _ _ _ _ _ _ Hc c0 Hbp) as [[]|[nd [Hin0 Hw]]].
    assert (Hna : node_attrs G c0 = Ok nd).
    { unfold node_attrs. rewrite (dget_nodup_in _ _ _ _ Hnd Hin0). reflexivity. }
    destruct (sort_desc scored) as [|q qs] eqn:Hsd; [|simpl in Ee; discriminate].
    destruct scored as [|p ps].
    2:{ assert (Hp : In p (sort_desc (p :: ps))) by (apply sort_desc_complete; left; reflexivity).
        rewrite Hsd in Hp. destruct Hp. }
    apply score_all_nil in Hs. apply score_candidate_none in Hs as [nd' [Hna' Hw']].
    rewrite Hna in Hna'. inversion Hna'; subst. congruence. }
  subst exits. split; [|split].
  - rewrite length_map. apply firstn_le_length.
  - apply Forall_map. eapply Forall_impl; [|exact Hfin].
    intros p Hp. exact (proj2 (score_candidate_some _ _ _ _ _ Hp)).
  - exists (firstn max_exit_nodes (sort_desc scored)). split; [reflexivity|]. split; [|exact Hfin].
    rewrite <- firstn_map. apply sorted_desc_firstn. exact Hsorted.
Qed.

(** C5: the road bonus looks only at the first incident edge that has a
    [highway] tag ([break] in the source).  Node 2 of [G_two_roads] has a
    [primary] incident edge, yet its score is the proximity score plus 0,
    because the first tagged incident edge is [residential]. *)
Lemma exit_score_first_highway_only :
  In [("highway", VStr "primary")]%string (incident_edges G_two_roads 2%nat) /\
  score_candidate G_two_roads (0, 0) 100 2%nat =
    Ok (Some (2%nat, 1 - (D_equator - 100) / buffer_distance + 0)) /\
  1 - (D_equator - 100) / buffer_distance + 0 <>
    1 - (D_equator - 100) / buffer_distance + 1 / 2.
Proof.
  split; [simpl; right; left; reflexivity|]. split; [|lra].
  unfold score_candidate. do 3 run_step. reflexivity.
Qed.

(** Witness for C7 on [G_water_start]: the exit list [[2]]. *)
Lemma exit_nodes_ok_witness :
  NoDup (map fst (g_nodes G_water_start)) /\
  get_disaster_exit_nodes G_water_start (0, 0) 100 = Ok [2%nat] /\
  ((List.length [2%nat] <= 10)%nat /\
   Forall (non_water_node G_water_start) [2%nat] /\
   exists scored, [2%nat] = map fst scored /\ sorted_desc (map snd scored) /\
     Forall (fun p => score_candidate G_water_start (0, 0) 100 (fst p) = Ok (Some p)) scored).
Proof.
  assert (Hnd : NoDup (map fst (g_nodes G_water_start))).
  { simpl. repeat constructor; simpl; intuition discriminate. }
  split; [exact Hnd|]. split; [exact exits_water_start|].
  apply (exit_nodes_ok G_water_start (0, 0) 100 [2%nat] Hnd exits_water_start).
Defined.

(** C2: in the network returned by [filter_road_network], the copy of
    every edge whose [bridge] tag is present and not one of 'no', 'false',
    '0' has [is_water = False], whatever its endpoints and its other tags:
    its dictionary is the source one with [is_water] set to [False]. The
    source dictionaries are allocated before the call. *)
Theorem annotate_bridge_not_water : forall h G h' G',
    (forall u v l, In (u, v, l) (hg_edges G) -> (l < h_next h)%nat) ->
    filter_road_network h G = Ok (h', G') ->
    forall i u v l, nth_error (hg_edges G) i = Some (u, v, l) ->
    is_bridge (read h l) = true ->
    exists l', nth_error (hg_edges G') i = Some (u, v, l') /\
      read h' l' = aset (read h l) "is_water" (VBool false) /\
      aget (read h' l') "is_water" = Some (VBool false).
Proof.
  intros h G h' G' Hwf H i u v l Hi Hb.
  destruct (filter_road_network_facts h G h' G' H Hwf) as [_ [_ [_ [_ [_ [_ F]]]]]].
  destruct (F i u v l Hi) as [nu [nv [He Hr]]].
  eexists. split; [exact He|].
  rewrite Hr, edge_annot_bridge by exact Hb. split; [reflexivity|apply aget_aset_same].
Qed.

Lemma bridge_graph_wf_edges :
  forall u v l, In (u, v, l) (hg_edges bridge_graph) -> (l < h_next bridge_heap)%nat.
Proof. intros u v l [E|[]]. inversion E; subst. cbn. lia. Qed.

Lemma bridge_graph_wf_nodes :
  forall n l, In (n, l) (hg_nodes bridge_graph) -> (l < h_next bridge_heap)%nat.
Proof. intros n l [E|[E|[]]]; inversion E; subst; cbn; lia. Qed.

(** Witness for C2: the bridge between the two water nodes of
    [bridge_graph], which also carries a [waterway] tag. *)
Lemma annotate_bridge_not_water_witness :
  exists h' G', filter_road_network bridge_heap bridge_graph = Ok (h', G') /\
    nth_error (hg_edges bridge_graph) 0 = Some (10%nat, 11%nat, 2%nat) /\
    is_bridge (read bridge_heap 2%nat) = true /\
    exists l', nth_error (hg_edges G') 0 = Some (10%nat, 11%nat, l') /\
      read h' l' = aset (read bridge_heap 2%nat) "is_water" (VBool false) /\
      aget (read h' l') "is_water" = Some (VBool false).
Proof.
  do 2 eexists. split; [reflexivity|]. split; [reflexivity|]. split; [reflexivity|].
  apply (annotate_bridge_not_water bridge_heap bridge_graph);
    [exact bridge_graph_wf_edges|reflexivity|reflexivity|reflexivity].
Defined.

(** C9: [filter_road_network] leaves the source network alone: every
    source node and edge dictionary (allocated before the call) keeps its
    content, the returned network has the same nodes and edges, stored in
    fresh dictionaries, each of which holds an [is_water] flag. *)
Theorem annotate_copy_on_write : forall h G h' G',
    (forall n l, In (n, l) (hg_nodes G) -> (l < h_next h)%nat) ->
    (forall u v l, In (u, v, l) (hg_edges G) -> (l < h_next h)%nat) ->
    filter_road_network h G = Ok (h', G') ->
    (forall n l, In (n, l) (hg_nodes G) -> h_store h' l = h_store h l) /\
    (forall u v l, In (u, v, l) (hg_edges G) -> h_store h' l = h_store h l) /\
    map fst (hg_nodes G') = map fst (hg_nodes G) /\
    map fst (hg_edges G') = map fst (hg_edges G) /\
    (forall n l, In (n, l) (hg_nodes G') -> (h_next h <= l)%nat /\ has_is_water h' l) /\
    (forall u v l, In (u, v, l) (hg_edges G') -> (h_next h <= l)%nat /\ has_is_water h' l).
Proof.
  intros h G h' G' Hwn Hwe H.
  destruct (filter_road_network_facts h G h' G' H Hwe) as [F1 [F2 [F3 [F4 [F5 [F6 _]]]]]].
  split; [intros n l Hl; apply F5, (Hwn n l Hl)|].
  split; [intros u v l Hl; apply F5, (Hwe u v l Hl)|].
  split; [exact F1|]. split; [exact F3|]. split.
  - intros n l Hl. assert (Hm : In l (map snd (hg_nodes G'))).
    { change l with (snd (n, l)). apply in_map; exact Hl. }
    split; [|apply F6; left; exact Hm].
    rewrite F2 in Hm. apply in_seq in Hm. lia.
  - intros u v l Hl. assert (Hm : In l (map snd (hg_edges G'))).
    { change l with (snd (u, v, l)). apply in_map; exact Hl. }
    split; [|apply F6; right; exact Hm].
    rewrite F4 in Hm. apply in_seq in Hm. lia.
Qed.

(** Witness for C9 on [bridge_heap] and [bridge_graph]. *)
Lemma annotate_copy_on_write_witness :
  exists h' G', filter_road_network bridge_heap bridge_graph = Ok (h', G') /\
    (forall n l, In (n, l) (hg_nodes bridge_graph) -> h_store h' l = h_store bridge_heap l) /\
    (forall u v l, In (u, v, l) (hg_edges bridge_graph) -> h_store h' l = h_store bridge_heap l) /\
    map fst (hg_nodes G') = map fst (hg_nodes bridge_graph) /\
    map fst (hg_edges G') = map fst (hg_edges bridge_graph) /\
    (forall n l, In (n, l) (hg_nodes G') -> (h_next bridge_heap <= l)%nat /\ has_is_water h' l) /\
    (forall u v l, In (u, v, l) (hg_edges G') -> (h_next bridge_heap <= l)%nat /\ has_is_water h' l).
Proof.
  do 2 eexists. split; [reflexivity|].
  apply (annotate_copy_on_write bridge_heap bridge_graph);
    [exact bridge_graph_wf_nodes|exact bridge_graph_wf_edges|reflexivity].
Defined.

(** ** The haversine formula never leaves the domain of [sqrt] and [asin] *)

Lemma half_angle_sin2 : forall t, sin (t / 2) ^ 2 = (1 - cos t) / 2.
Proof.
  intro t. pose proof (cos_2a_sin (t / 2)) as H.
  replace (2 * (t / 2)) with t in H by field. rewrite H. field.
Qed.

(** The haversine term [a] lies in [[0, 1]] for all real arguments. *)
Lemma haversine_a_bounds : forall p1 l1 p2 l2,
    0 <= sin ((p2 - p1) / 2) ^ 2 + cos p1 * cos p2 * sin ((l2 - l1) / 2) ^ 2 <= 1.
Proof.
  intros p1 l1 p2 l2. rewrite !half_angle_sin2, cos_minus.
  pose proof (sin2_cos2 p1) as E1. pose proof (sin2_cos2 p2) as E2.
  pose proof (COS_bound (l2 - l1)) as Hk. unfold Rsqr in E1, E2.
  set (s1 := sin p1) in *. set (c1 := cos p1) in *.
  set (s2 := sin p2) in *. set (c2 := cos p2) in *. set (k := cos (l2 - l1)) in *.
  assert (HX : (s1 * s2 + c1 * c2 * k) ^ 2 <= 1).
  { assert (Hcs : (s1 * s2 + c1 * c2 * k) ^ 2
                  = (s1 * s1 + c1 * c1) * (s2 * s2 + c2 * c2 * k * k)
                    - (s1 * c2 * k - c1 * s2) ^ 2) by ring.
    rewrite Hcs, E1.
    assert (H1 : 0 <= c2 * c2 * (1 - k * k)) by (apply Rmult_le_pos; nra).
    pose proof (pow2_ge_0 (s1 * c2 * k - c1 * s2)) as H2.
    assert (H3 : s2 * s2 + c2 * c2 * k * k = 1 - c2 * c2 * (1 - k * k)) 
      by (transitivity ((s2 * s2 + c2 * c2) - c2 * c2 * (1 - k * k)); [ring|rewrite E2; reflexivity]).
    rewrite H3. lra. }
  assert (-1 <= s1 * s2 + c1 * c2 * k <= 1) by nra.
  split; nra.
Qed.

Lemma asin_nonneg : forall x, 0 <= x <= 1 -> 0 <= asin x.
Proof.
  intros x Hx. destruct (Rle_or_lt 0 (asin x)) as [H|H]; [exact H|].
  exfalso. pose proof (asin_bound x) as Hb. pose proof PI_RGT_0.
  assert (sin (asin x) < 0) by (apply sin_lt_0_var; lra).
  rewrite sin_asin in H1 by lra. lra.
Qed.

Lemma haversine_range : forall lat1 lon1 lat2 lon2,
    exists d, haversine_distance lat1 lon1 lat2 lon2 = Ok d /\ 0 <= d <= PI * 6371000.
Proof.
  intros lat1 lon1 lat2 lon2. unfold haversine_distance. cbv zeta.
  destruct (haversine_a_bounds (radians lat1) (radians lon1) (radians lat2) (radians lon2))
    as [Ha0 Ha1].
  set (a := sin ((radians lat2 - radians lat1) / 2) ^ 2 +
            cos (radians lat1) * cos (radians lat2) * sin ((radians lon2 - radians lon1) / 2) ^ 2)
    in *.
  destruct (Rlt_dec a 0) as [H|_]; [lra|].
  assert (Hs : 0 <= sqrt a <= 1).
  { split; [apply sqrt_pos|]. rewrite <- sqrt_1. apply sqrt_le_1_alt. exact Ha1. }
  destruct (Rlt_dec 1 (sqrt a)) as [H|_]; [lra|].
  eexists. split; [reflexivity|].
  pose proof (asin_bound (sqrt a)). pose proof (asin_nonneg (sqrt a) Hs). lra.
Qed.

Lemma haversine_sym : forall lat1 lon1 lat2 lon2,
    haversine_distance lat1 lon1 lat2 lon2 = haversine_distance lat2 lon2 lat1 lon1.
Proof.
  intros lat1 lon1 lat2 lon2. unfold haversine_distance. cbv zeta.
  assert (E : sin ((radians lat1 - radians lat2) / 2) ^ 2 +
              cos (radians lat2) * cos (radians lat1) * sin ((radians lon1 - radians lon2) / 2) ^ 2
            = sin ((radians lat2 - radians lat1) / 2) ^ 2 +
              cos (radians lat1) * cos (radians lat2) * sin ((radians lon2 - radians lon1) / 2) ^ 2).
  { replace ((radians lat1 - radians lat2) / 2) with (- ((radians lat2 - radians lat1) / 2))
      by field.
    replace ((radians lon1 - radians lon2) / 2) with (- ((radians lon2 - radians lon1) / 2))
      by field.
    rewrite !sin_neg. ring. }
  rewrite E. reflexivity.
Qed.


(** X2: [haversine_distance] is symmetric in its two points. *)
Theorem haversine_distance_symmetric : forall lat1 lon1 lat2 lon2,
    haversine_distance lat1 lon1 lat2 lon2 = haversine_distance lat2 lon2 lat1 lon1.
Proof. exact haversine_sym. Qed.


Lemma haversine_val_nonneg : forall y x lat lon d,
    haversine_val y x lat lon = Ok d -> 0 <= d.
Proof.
  intros y x lat lon d H. unfold haversine_val in H.
  destruct (as_number y) as [e|a]; [discriminate|]. cbn [bind Ok] in H.
  destruct (as_number x) as [e|b]; [discriminate|]. cbn [bind Ok] in H.
  destruct (haversine_range a b lat lon) as [d' [Hd' Hr]]. rewrite Hd' in H.
  inversion H; subst. lra.
Qed.

Lemma min_exit_distance_nonneg : forall G es y x acc m,
    min_exit_distance G es y x acc = Ok m ->
    (forall v, acc = Fin v -> 0 <= v) -> forall v, m = Fin v -> 0 <= v.
Proof.
  intros G es y x. induction es as [|e es IH]; intros acc m H Hacc; cbn [min_exit_distance] in H.
  - inversion H; subst. exact Hacc.
  - destruct (node_attrs G e) as [err|ed]; [discriminate|]. cbn [bind Ok] in H.
    destruct (amem ed "x" && amem ed "y"); [|exact (IH _ _ H Hacc)].
    destruct (aindex ed "y") as [err|ey]; [discriminate|]. cbn [bind Ok] in H.
    destruct (aindex ed "x") as [err|ex]; [discriminate|]. cbn [bind Ok] in H.
    destruct (as_number y) as [err|lat1]; [discriminate|]. cbn [bind Ok] in H.
    destruct (as_number x) as [err|lon1]; [discriminate|]. cbn [bind Ok] in H.
    destruct (haversine_val ey ex lat1 lon1) as [err|dd] eqn:Hd; [discriminate|].
    cbn [bind Ok] in H. apply (IH _ _ H).
    pose proof (haversine_val_nonneg _ _ _ _ _ Hd).
    unfold ext_min, ext_ltb. intros v Hv. destruct acc as [a|].
    + destruct (Rlt_dec dd a); inversion Hv; subst; [lra|apply Hacc; reflexivity].
    + inversion Hv; subst. lra.
Qed.

(** X4: the A* heuristic never gives a negative estimate: a finite value
    it returns is at least 0 (inside the radius the distance to the
    nearest exit is scaled by [1 + 1.5 (r - d) / r >= 1]). *)
Theorem heuristic_nonneg : forall G exit_nodes disaster_node disaster_radius n v,
    heuristic G exit_nodes disaster_node disaster_radius n = Ok (Fin v) -> 0 <= v.
Proof.
  intros G exits c r n v H. unfold heuristic in H.
  destruct (node_attrs G n) as [e|nd]; [discriminate|]. cbn [bind Ok] in H.
  destruct (negb (amem nd "x" && amem nd "y")); [discriminate|].
  destruct (is_water nd); [discriminate|].
  destruct (aindex nd "y") as [e|y]; [discriminate|]. cbn [bind Ok] in H.
  destruct (aindex nd "x") as [e|x]; [discriminate|]. cbn [bind Ok] in H.
  destruct (haversine_val y x (fst c) (snd c)) as [e|d] eqn:Hd; [discriminate|].
  cbn [bind Ok] in H.
  destruct (min_exit_distance G exits y x Inf) as [e|m] eqn:Hm; [discriminate|].
  cbn [bind Ok] in H.
  pose proof (min_exit_distance_nonneg _ _ _ _ _ _ Hm ltac:(discriminate)) as Hmn.
  pose proof (haversine_val_nonneg _ _ _ _ _ Hd) as Hd0.
  unfold Rleb in H. destruct (Rle_dec d r) as [Hle|Hgt].
  - destruct (Req_dec_T r 0) as [|Hr0]; [discriminate|].
    destruct m as [mv|]; inversion H; subst.
    assert (0 <= mv) by (apply Hmn; reflexivity).
    assert (0 < r) by lra.
    assert (0 <= 3 / 2 * (r - d) / r).
    { unfold Rdiv. apply Rmult_le_pos; [lra|]. left. apply Rinv_0_lt_compat. lra. }
    apply Rmult_le_pos; lra.
  - inversion H; subst. apply Hmn; reflexivity.
Qed.

(** ** The nearest-node fallback *)

Lemma coord_dist_fun : forall nd lat lon d1 d2,
    coord_dist nd lat lon d1 -> coord_dist nd lat lon d2 -> d1 = d2.
Proof.
  intros nd lat lon d1 d2 [_ [y [x [ry [rx [Hy [Hx [Hry [Hrx Hd]]]]]]]]]
    [_ [y' [x' [ry' [rx' [Hy' [Hx' [Hry' [Hrx' Hd']]]]]]]]].
  rewrite Hy in Hy'. inversion Hy'; subst y'. rewrite Hx in Hx'. inversion Hx'; subst x'.
  rewrite Hry in Hry'. inversion Hry'; subst ry'. rewrite Hrx in Hrx'. inversion Hrx'; subst rx'.
  rewrite Hd in Hd'. inversion Hd'. reflexivity.
Qed.

Lemma nearest_loop_spec : forall ns lat lon mn cur res,
    nearest_loop ns lat lon mn cur = Ok res ->
    (res = cur /\ forall n nd d, In (n, nd) ns -> coord_dist nd lat lon d ->
                                 ext_ltb (Fin d) mn = false) \/
    (exists n nd d, res = Some n /\ In (n, nd) ns /\ coord_dist nd lat lon d /\
       ext_ltb (Fin d) mn = true /\
       forall n' nd' d', In (n', nd') ns -> coord_dist nd' lat lon d' -> d <= d').
Proof.
  induction ns as [|[n0 nd0] ns IH]; intros lat lon mn cur res H; cbn [nearest_loop] in H.
  - inversion H; subst. left. split; [reflexivity|]. intros n nd d [].
  - destruct (amem nd0 "x" && amem nd0 "y") eqn:Hc.
    2:{ destruct (IH _ _ _ _ _ H) as [[Hres Hall]|[n [nd [d [Hres [Hin [Hcd [Hlt Hmin]]]]]]]].
        - left. split; [exact Hres|]. intros n nd d [E|Hin] Hcd.
          + inversion E; subst. destruct Hcd as [Hc' _]. congruence.
          + exact (Hall n nd d Hin Hcd).
        - right. exists n, nd, d. split; [exact Hres|]. split; [right; exact Hin|].
          split; [exact Hcd|]. split; [exact Hlt|]. intros n' nd' d' [E|Hin'] Hcd'.
          + inversion E; subst. destruct Hcd' as [Hc' _]. congruence.
          + exact (Hmin n' nd' d' Hin' Hcd'). }
    destruct (aindex nd0 "x") as [e|vx] eqn:Hx; [discriminate|]. cbn [bind Ok] in H.
    destruct (aindex nd0 "y") as [e|vy] eqn:Hy; [discriminate|]. cbn [bind Ok] in H.
    destruct (as_number vy) as [e|ry] eqn:Hry; [discriminate|]. cbn [bind Ok] in H.
    destruct (as_number vx) as [e|rx] eqn:Hrx; [discriminate|]. cbn [bind Ok] in H.
    destruct (haversine_distance lat lon ry rx) as [e|d0] eqn:Hd0; [discriminate|].
    cbn [bind Ok] in H.
    assert (Hcd0 : coord_dist nd0 lat lon d0)
      by (split; [exact Hc|exists vy, vx, ry, rx; auto]).
    assert (Hhead : forall n' nd' d', (n0, nd0) = (n', nd') -> coord_dist nd' lat lon d' -> d' = d0).
    { intros n' nd' d' E Hcd'. inversion E; subst. exact (coord_dist_fun _ _ _ _ _ Hcd' Hcd0). }
    destruct (ext_ltb (Fin d0) mn) eqn:Hlt0.
    + right.
      destruct (IH _ _ _ _ _ H) as [[Hres Hall]|[n [nd [d [Hres [Hin [Hcd [Hlt Hmin]]]]]]]].
      * exists n0, nd0, d0. split; [exact Hres|]. split; [left; reflexivity|].
        split; [exact Hcd0|]. split; [exact Hlt0|].
        intros n' nd' d' [E|Hin'] Hcd'.
        -- rewrite (Hhead _ _ _ E Hcd'). lra.
        -- pose proof (Hall n' nd' d' Hin' Hcd') as Hf. unfold ext_ltb in Hf.
           destruct (Rlt_dec d' d0); [discriminate|lra].
      * exists n, nd, d. split; [exact Hres|]. split; [right; exact Hin|].
        split; [exact Hcd|]. unfold ext_ltb in Hlt. destruct (Rlt_dec d d0) as [Hdd|]; [|discriminate].
        split.
        -- unfold ext_ltb in *. destruct mn as [m|]; [|reflexivity].
           destruct (Rlt_dec d0 m); [|discriminate]. destruct (Rlt_dec d m); [reflexivity|lra].
        -- intros n' nd' d' [E|Hin'] Hcd'.
           ++ rewrite (Hhead _ _ _ E Hcd'). lra.
           ++ exact (Hmin n' nd' d' Hin' Hcd').
    + destruct (IH _ _ _ _ _ H) as [[Hres Hall]|[n [nd [d [Hres [Hin [Hcd [Hlt Hmin]]]]]]]].
      * left. split; [exact Hres|]. intros n' nd' d' [E|Hin'] Hcd'.
        -- rewrite (Hhead _ _ _ E Hcd'). exact Hlt0.
        -- exact (Hall n' nd' d' Hin' Hcd').
      * right. exists n, nd, d. split; [exact Hres|]. split; [right; exact Hin|].
        split; [exact Hcd|]. split; [exact Hlt|].
        intros n' nd' d' [E|Hin'] Hcd'.
        -- rewrite (Hhead _ _ _ E Hcd').
           unfold ext_ltb in Hlt, Hlt0. destruct mn as [m|]; [|discriminate].
           destruct (Rlt_dec d m); [|discriminate]. destruct (Rlt_dec d0 m); [discriminate|lra].
        -- exact (Hmin n' nd' d' Hin' Hcd').
Qed.

Lemma nearest_loop_coords : forall ns lat lon mn cur res,
    nearest_loop ns lat lon mn cur = Ok res ->
    forall n nd, In (n, nd) ns -> amem nd "x" && amem nd "y" = true ->
    exists d, coord_dist nd lat lon d.
Proof.
  induction ns as [|[n0 nd0] ns IH]; intros lat lon mn cur res H n nd Hin Hc;
    cbn [nearest_loop] in H; [destruct Hin|].
  destruct Hin as [E|Hin].
  - inversion E; subst n0 nd0. rewrite Hc in H.
    destruct (aindex nd "x") as [e|vx] eqn:Hx; [discriminate|]. cbn [bind Ok] in H.
    destruct (aindex nd "y") as [e|vy] eqn:Hy; [discriminate|]. cbn [bind Ok] in H.
    destruct (as_number vy) as [e|ry] eqn:Hry; [discriminate|]. cbn [bind Ok] in H.
    destruct (as_number vx) as [e|rx] eqn:Hrx; [discriminate|]. cbn [bind Ok] in H.
    destruct (haversine_distance lat lon ry rx) as [e|d0] eqn:Hd0; [discriminate|].
    exists d0. split; [exact Hc|]. exists vy, vx, ry, rx. auto.
  - destruct (amem nd0 "x" && amem nd0 "y"); [|exact (IH _ _ _ _ _ H n nd Hin Hc)].
    destruct (aindex nd0 "x") as [e|vx]; [discriminate|]. cbn [bind Ok] in H.
    destruct (aindex nd0 "y") as [e|vy]; [discriminate|]. cbn [bind Ok] in H.
    destruct (as_number vy) as [e|ry]; [discriminate|]. cbn [bind Ok] in H.
    destruct (as_number vx) as [e|rx]; [discriminate|]. cbn [bind Ok] in H.
    destruct (haversine_distance lat lon ry rx) as [e|d0]; [discriminate|].
    cbn [bind Ok] in H.
    destruct (ext_ltb (Fin d0) mn); exact (IH _ _ _ _ _ H n nd Hin Hc).
Qed.

(** X5: the fallback of [get_nearest_node] returns [None] only when no
    node has both coordinates; otherwise it returns a node with
    coordinates whose haversine distance to (lat, lon) is the least over
    all nodes with coordinates. *)
Theorem nearest_fallback_min : forall G lat lon res,
    get_nearest_node_fallback G lat lon = Ok res ->
    match res with
    | None => forall n nd, In (n, nd) (g_nodes G) -> amem nd "x" && amem nd "y" = false
    | Some n => exists nd d, In (n, nd) (g_nodes G) /\ coord_dist nd lat lon d /\
        forall n' nd' d', In (n', nd') (g_nodes G) -> coord_dist nd' lat lon d' -> d <= d'
    end.
Proof.
  intros G lat lon res H. unfold get_nearest_node_fallback in H.
  destruct (nearest_loop_spec _ _ _ _ _ _ H) as [[Hres Hall]|[n [nd [d [Hres [Hin [Hcd [_ Hmin]]]]]]]].
  - subst res. intros n nd Hin. destruct (amem nd "x" && amem nd "y") eqn:Hc; [|reflexivity].
    destruct (nearest_loop_coords _ _ _ _ _ _ H n nd Hin Hc) as [d Hcd].
    pose proof (Hall n nd d Hin Hcd) as Hf. discriminate.
  - subst res. exists nd, d. auto.
Qed.

Lemma nearest_water_start : get_nearest_node_fallback G_water_start 0 0 = Ok (Some 0%nat).
Proof.
  unfold get_nearest_node_fallback. cbn.
  rewrite !haversine_same. cbn.
  destruct (Rlt_dec 0 0) as [H|_]; [lra|].
  rewrite haversine_sym, haversine_equator. cbn.
  destruct (Rlt_dec D_equator 0) as [H|_]; [pose proof D_equator_bounds; lra|].
  reflexivity.
Qed.

(** Witness for X5: on [G_water_start] the nearest node to (0, 0) is 0. *)
Lemma nearest_fallback_min_witness :
  get_nearest_node_fallback G_water_start 0 0 = Ok (Some 0%nat) /\
  exists nd d, In (0%nat, nd) (g_nodes G_water_start) /\ coord_dist nd 0 0 d /\
    forall n' nd' d', In (n', nd') (g_nodes G_water_start) -> coord_dist nd' 0 0 d' -> d <= d'.
Proof.
  split; [exact nearest_water_start|].
  exact (nearest_fallback_min G_water_start 0 0 (Some 0%nat) nearest_water_start).
Defined.

(** ** [find_exit_nodes] of data_processing.py *)

Lemma set_add_mono : forall n m s, In m s -> In m (set_add n s).
Proof.
  intros n m s H. unfold set_add. destruct (mem n s); [exact H|]. apply in_or_app; left; exact H.
Qed.

Lemma set_add_self : forall n s, In n (set_add n s).
Proof.
  intros n s. unfold set_add. destruct (mem n s) eqn:E; [apply mem_in; exact E|].
  apply in_or_app; right; left; reflexivity.
Qed.

Lemma set_add_nodup : forall n s, NoDup s -> NoDup (set_add n s).
Proof.
  intros n s H. unfold set_add. destruct (mem n s) eqn:E; [exact H|].
  apply NoDup_app; [exact H|repeat constructor; intros []|].
  intros x Hx [Hxn|[]]. rewrite <- Hxn in Hx. assert (Hm : mem n s = true).
  { unfold mem. apply existsb_exists. exists n. split; [exact Hx|apply Nat.eqb_refl]. }
  congruence.
Qed.

Lemma list_set_spec : forall xs acc, NoDup acc ->
    NoDup (fold_left (fun s n => set_add n s) xs acc) /\
    (forall n, In n (fold_left (fun s n => set_add n s) xs acc) <-> In n acc \/ In n xs).
Proof.
  induction xs as [|x xs IH]; intros acc Hnd; simpl.
  - split; [exact Hnd|]. intros n; split; [left; exact H|intros [H|[]]; exact H].
  - destruct (IH (set_add x acc) (set_add_nodup x acc Hnd)) as [H1 H2].
    split; [exact H1|]. intros n. rewrite H2. split.
    + intros [H|H]; [|right; right; exact H].
      apply set_add_in in H as [H|H]; [left; exact H|right; left; auto].
    + intros [H|[H|H]]; [left; apply set_add_mono; exact H|left; subst; apply set_add_self|].
      right; exact H.
Qed.

Lemma node_dist_eval : forall G c u nd y x d,
    node_attrs G u = Ok nd -> amem nd "x" && amem nd "y" = true ->
    aindex nd "y" = Ok y -> aindex nd "x" = Ok x ->
    haversine_val y x (fst c) (snd c) = Ok d ->
    forall d', node_dist G c u d' <-> d' = d.
Proof.
  intros G c u nd y x d Hn Hc Hy Hx Hd d'. split.
  - intros [nd' [y' [x' [Hn' [_ [Hy' [Hx' Hd']]]]]]].
    rewrite Hn in Hn'. inversion Hn'; subst nd'.
    rewrite Hy in Hy'. inversion Hy'; subst y'. rewrite Hx in Hx'. inversion Hx'; subst x'.
    rewrite Hd in Hd'. inversion Hd'. reflexivity.
  - intros ->. exists nd, y, x. auto.
Qed.

Lemma node_dist_nocoord : forall G c u nd,
    node_attrs G u = Ok nd -> amem nd "x" && amem nd "y" = false ->
    forall d, ~ node_dist G c u d.
Proof.
  intros G c u nd Hn Hc d [nd' [y [x [Hn' [Hc' _]]]]].
  rewrite Hn in Hn'. inversion Hn'; subst. congruence.
Qed.

Lemma crossing_cons : forall G u v ed es c r n,
    crossing_endpoint G ((u, v, ed) :: es) c r n <->
    (exists du dv, node_dist G c u du /\ node_dist G c v dv /\
       ((du <= r /\ r < dv /\ n = v) \/ (dv <= r /\ r < du /\ n = u))) \/
    crossing_endpoint G es c r n.
Proof.
  intros. split.
  - intros [u' [v' [ed' [du [dv [[E|Hin] [Hu [Hv Hc]]]]]]]].
    + inversion E; subst. left. exists du, dv. auto.
    + right. exists u', v', ed', du, dv. auto.
  - intros [[du [dv [Hu [Hv Hc]]]]|[u' [v' [ed' [du [dv [Hin [Hu [Hv Hc]]]]]]]]].
    + exists u, v, ed, du, dv. split; [left; reflexivity|auto].
    + exists u', v', ed', du, dv. split; [right; exact Hin|auto].
Qed.

Lemma border_loop_spec : forall G es c r acc res,
    border_loop G es c r acc = Ok res ->
    forall n, In n res <-> In n acc \/ crossing_endpoint G es c r n.
Proof.
  intros G es c r. induction es as [|[[u0 v0] ed0] es IH]; intros acc res H n;
    cbn [border_loop] in H.
  - inversion H; subst. split; [intros Hn; left; exact Hn|].
    intros [Hn|[u [v [ed [du [dv [[] _]]]]]]]. exact Hn.
  - rewrite crossing_cons.
    destruct (node_attrs G u0) as [e|ndu] eqn:Hnu; [discriminate|]. cbn [bind Ok] in H.
    destruct (node_attrs G v0) as [e|ndv] eqn:Hnv; [discriminate|]. cbn [bind Ok] in H.
    destruct (amem ndu "x" && amem ndu "y" && amem ndv "x" && amem ndv "y") eqn:Hc.
    2:{ rewrite (IH _ _ H n). split; [tauto|].
        intros [Hn|[[du [dv [Hu [Hv _]]]]|Hn]]; [left; exact Hn| |right; exact Hn].
        exfalso. rewrite <- !andb_assoc in Hc.
        destruct (amem ndu "x" && amem ndu "y") eqn:Hcu.
        - rewrite !andb_assoc in Hc. rewrite Hcu in Hc. cbn [andb] in Hc.
          exact (node_dist_nocoord G c v0 ndv Hnv Hc dv Hv).
        - exact (node_dist_nocoord G c u0 ndu Hnu Hcu du Hu). }
    apply andb_prop in Hc as [Hc Hcv2]. apply andb_prop in Hc as [Hcu Hcv1].
    assert (Hcv : amem ndv "x" && amem ndv "y" = true) by (rewrite Hcv1, Hcv2; reflexivity).
    destruct (aindex ndu "y") as [e|uy] eqn:Huy; [discriminate|]. cbn [bind Ok] in H.
    destruct (aindex ndu "x") as [e|ux] eqn:Hux; [discriminate|]. cbn [bind Ok] in H.
    destruct (haversine_val uy ux (fst c) (snd c)) as [e|du0] eqn:Hdu; [discriminate|].
    cbn [bind Ok] in H.
    destruct (aindex ndv "y") as [e|vy] eqn:Hvy; [discriminate|]. cbn [bind Ok] in H.
    destruct (aindex ndv "x") as [e|vx] eqn:Hvx; [discriminate|]. cbn [bind Ok] in H.
    destruct (haversine_val vy vx (fst c) (snd c)) as [e|dv0] eqn:Hdv; [discriminate|].
    cbn [bind Ok] in H.
    pose proof (node_dist_eval G c u0 ndu uy ux du0 Hnu Hcu Huy Hux Hdu) as Eu.
    pose proof (node_dist_eval G c v0 ndv vy vx dv0 Hnv Hcv Hvy Hvx Hdv) as Ev.
    assert (Hhead : (exists du dv, node_dist G c u0 du /\ node_dist G c v0 dv /\
                      ((du <= r /\ r < dv /\ n = v0) \/ (dv <= r /\ r < du /\ n = u0))) <->
                    ((du0 <= r /\ r < dv0 /\ n = v0) \/ (dv0 <= r /\ r < du0 /\ n = u0))).
    { split.
      - intros [du [dv [Hu [Hv Hx]]]]. apply Eu in Hu. apply Ev in Hv. subst. exact Hx.
      - intros Hx. exists du0, dv0. split; [apply Eu; reflexivity|].
        split; [apply Ev; reflexivity|exact Hx]. }
    rewrite Hhead. unfold Rleb, Rltb in H.
    destruct (Rle_dec du0 r) as [H1|H1]; destruct (Rlt_dec r dv0) as [H2|H2];
      destruct (Rle_dec dv0 r) as [H3|H3]; destruct (Rlt_dec r du0) as [H4|H4];
      cbn [andb] in H; rewrite (IH _ _ H n);
      try rewrite in_app_iff; cbn [In];
      (split; [intros Hx; intuition (subst; auto; lra)|intros Hx; intuition (subst; auto; lra)]).
Qed.

(** X6: [find_exit_nodes] returns, without duplicates, exactly the nodes
    that are the outside endpoint (distance above the radius) of an edge
    whose other endpoint is inside the radius, both endpoints having
    coordinates. *)
Theorem find_exit_nodes_spec : forall G disaster_node disaster_radius xs,
    find_exit_nodes G disaster_node disaster_radius = Ok xs ->
    NoDup xs /\
    forall n, In n xs <-> crossing_endpoint G (g_edges G) disaster_node disaster_radius n.
Proof.
  intros G c r xs H. unfold find_exit_nodes in H.
  destruct (border_loop G (g_edges G) c r []) as [e|ex] eqn:Hb; [discriminate|].
  cbn [bind Ok] in H. inversion H; subst xs.
  destruct (list_set_spec ex [] (NoDup_nil _)) as [Hnd Hin].
  split; [exact Hnd|]. intros n. unfold list_set. rewrite Hin, (border_loop_spec _ _ _ _ _ _ Hb n).
  cbn [In]. tauto.
Qed.

Lemma find_exits_water_start : find_exit_nodes G_water_start (0, 0) 100 = Ok [2%nat].
Proof.
  unfold find_exit_nodes. cbn.
  rewrite !haversine_same, haversine_equator. cbn.
  pose proof D_equator_bounds as HD. unfold Rleb, Rltb.
  destruct (Rle_dec 0 100) as [_|H]; [|lra].
  destruct (Rlt_dec 100 D_equator) as [_|H]; [|lra].
  reflexivity.
Qed.

(** Witness for X6: on [G_water_start] the crossing edges 0-2 and 1-2
    give the single exit node 2. *)
Lemma find_exit_nodes_spec_witness :
  find_exit_nodes G_water_start (0, 0) 100 = Ok [2%nat] /\
  NoDup [2%nat] /\
  forall n, In n [2%nat] <-> crossing_endpoint G_water_start (g_edges G_water_start) (0, 0) 100 n.
Proof.
  split; [exact find_exits_water_start|].
  exact (find_exit_nodes_spec G_water_start (0, 0) 100 [2%nat] find_exits_water_start).
Defined.

(** ** Where the exit nodes and the routes end *)

Lemma classify_spec : forall ns c r ins outs ins' outs',
    classify_nodes ns c r ins outs = Ok (ins', outs') ->
    (forall n, In n ins' -> In n ins \/ exists d, listed_at ns c n d /\ d <= r) /\
    (forall n, In n outs' -> In n outs \/
       exists d, listed_at ns c n d /\ r < d /\ d <= r + buffer_distance).
Proof.
  induction ns as [|[n0 nd0] ns IH]; intros c r ins outs ins' outs' H; cbn [classify_nodes] in H.
  - inversion H; subst. split; intros n Hn; left; exact Hn.
  - assert (Hlift : forall n d, listed_at ns c n d -> listed_at ((n0, nd0) :: ns) c n d).
    { intros n d [nd [y [x [Hin Hrest]]]]. exists nd, y, x. split; [right; exact Hin|exact Hrest]. }
    destruct (amem nd0 "x" && amem nd0 "y") eqn:Hc.
    2:{ destruct (IH _ _ _ _ _ _ H) as [Hi Ho]. split.
        - intros n Hn. destruct (Hi n Hn) as [A|[d [B C]]]; [left; exact A|right; exists d; auto].
        - intros n Hn. destruct (Ho n Hn) as [A|[d [B C]]]; [left; exact A|right; exists d; auto]. }
    destruct (is_water nd0) eqn:Hw.
    { destruct (IH _ _ _ _ _ _ H) as [Hi Ho]. split.
      - intros n Hn. destruct (Hi n Hn) as [A|[d [B C]]]; [left; exact A|right; exists d; auto].
      - intros n Hn. destruct (Ho n Hn) as [A|[d [B C]]]; [left; exact A|right; exists d; auto]. }
    destruct (aindex nd0 "y") as [e|y] eqn:Hy; [discriminate|]. cbn [bind Ok] in H.
    destruct (aindex nd0 "x") as [e|x] eqn:Hx; [discriminate|]. cbn [bind Ok] in H.
    destruct (haversine_val y x (fst c) (snd c)) as [e|d0] eqn:Hd; [discriminate|].
    cbn [bind Ok] in H.
    assert (Hl0 : listed_at ((n0, nd0) :: ns) c n0 d0).
    { exists nd0, y, x. split; [left; reflexivity|auto]. }
    unfold Rleb in H. destruct (Rle_dec d0 r) as [Hle|Hgt].
    + destruct (IH _ _ _ _ _ _ H) as [Hi Ho]. split.
      * intros n Hn. destruct (Hi n Hn) as [A|[d [B C]]]; [|right; exists d; auto].
        apply set_add_in in A as [A|A]; [left; exact A|subst; right; exists d0; auto].
      * intros n Hn. destruct (Ho n Hn) as [A|[d [B C]]]; [left; exact A|right; exists d; auto].
    + destruct (Rle_dec d0 (r + buffer_distance)) as [Hle2|Hgt2];
        destruct (IH _ _ _ _ _ _ H) as [Hi Ho]; split;
        try (intros n Hn; destruct (Hi n Hn) as [A|[d [B C]]]; [left; exact A|right; exists d; auto]).
      * intros n Hn. destruct (Ho n Hn) as [A|[d [B C]]]; [|right; exists d; auto].
        apply set_add_in in A as [A|A]; [left; exact A|subst; right; exists d0; split; [auto|lra]].
      * intros n Hn. destruct (Ho n Hn) as [A|[d [B C]]]; [left; exact A|right; exists d; auto].
Qed.

Lemma listed_node_dist : forall G c n d,
    NoDup (map fst (g_nodes G)) -> listed_at (g_nodes G) c n d ->
    node_dist G c n d /\ non_water_node G n.
Proof.
  intros G c n d Hnd [nd [y [x [Hin [Hw [Hc [Hy [Hx Hd]]]]]]]].
  assert (Hna : node_attrs G n = Ok nd).
  { unfold node_attrs. rewrite (dget_nodup_in _ _ _ _ Hnd Hin). reflexivity. }
  split; [exists nd, y, x; auto|exists nd; auto].
Qed.

Lemma boundary_pairs_spec : forall G ins outs u nb,
    In (u, nb) (boundary_pairs G ins outs) ->
    In u ins /\ In nb (neighbors G u) /\ In nb outs /\ is_water (get_edge_data G u nb) = false.
Proof.
  intros G ins outs u nb H. unfold boundary_pairs in H.
  apply in_flat_map in H as [u' [Hu' H]]. apply in_flat_map in H as [nb' [Hnb' H]].
  destruct (mem nb' outs) eqn:Em; [|destruct H].
  destruct (is_water (get_edge_data G u' nb')) eqn:Hw; cbn [negb andb] in H; [destruct H|].
  destruct H as [H|[]]. inversion H; subst.
  split; [exact Hu'|]. split; [exact Hnb'|]. split; [apply mem_in; exact Em|exact Hw].
Qed.

Lemma score_all_sub : forall G c r cands scored,
    score_all G c r cands = Ok scored -> forall p, In p scored -> In (fst p) cands.
Proof.
  induction cands as [|n cands IH]; intros scored H p Hp; simpl in H.
  - inversion H; subst. destruct Hp.
  - destruct (score_candidate G c r n) as [e|o] eqn:Hs; [discriminate|]. cbn [bind] in H.
    destruct (score_all G c r cands) as [e|rest]; [discriminate|]. cbn [bind] in H.
    specialize (IH rest eq_refl).
    destruct o as [q|]; inversion H; subst; [|right; exact (IH p Hp)].
    destruct Hp as [<-|Hp]; [|right; exact (IH p Hp)].
    left. symmetry. exact (proj1 (score_candidate_some _ _ _ _ _ Hs)).
Qed.

(** Every exit node is a candidate: the outside end of a boundary pair. *)
Lemma exits_are_candidates : forall G c r exits,
    get_disaster_exit_nodes G c r = Ok exits -> forall e, In e exits ->
    exists ins outs u, classify_nodes (g_nodes G) c r [] [] = Ok (ins, outs) /\
      In (u, e) (boundary_pairs G ins outs).
Proof.
  intros G c r exits H e He. unfold get_disaster_exit_nodes in H.
  destruct (classify_nodes (g_nodes G) c r [] []) as [err|[ins outs]] eqn:Hc; [discriminate|].
  cbn [bind Ok] in H.
  destruct (score_all G c r (list_set (map snd (boundary_pairs G ins outs))))
    as [err|scored] eqn:Hs; [discriminate|].
  cbn [bind Ok] in H.
  assert (Hcand : In e (list_set (map snd (boundary_pairs G ins outs)))).
  { destruct (map fst (firstn max_exit_nodes (sort_desc scored))) as [|x xs] eqn:Ee.
    - destruct (list_set (map snd (boundary_pairs G ins outs))) as [|c0 cs] eqn:Ec;
        inversion H; subst exits; [destruct He|].
      destruct He as [<-|[]]. left; reflexivity.
    - assert (Hex : exits = x :: xs).
      { destruct (list_set _); inversion H; reflexivity. }
      subst exits. rewrite <- Ee in He. apply in_map_iff in He as [p [Hpe Hp]].
      apply in_firstn' in Hp.
      destruct (sort_desc_spec scored [] I) as [_ Hin]. fold (sort_desc scored) in Hin.
      destruct (Hin p Hp) as [[]|Hp']. subst e. exact (score_all_sub _ _ _ _ _ Hs p Hp'). }
  unfold list_set in Hcand.
  destruct (list_set_in _ [] e Hcand) as [[]|Hm].
  apply in_map_iff in Hm as [[u e'] [He' Hbp]]. cbn [snd] in He'. subst e'.
  exists ins, outs, u. auto.
Qed.

(** The exit-node facts shared by the statements below. *)
Lemma exit_node_facts : forall G c r exits,
    NoDup (map fst (g_nodes G)) ->
    get_disaster_exit_nodes G c r = Ok exits -> forall e, In e exits ->
    non_water_node G e /\ (exists d, node_dist G c e d /\ r < d <= r + buffer_distance) /\
    exists u du, In e (neighbors G u) /\ non_water_node G u /\ node_dist G c u du /\ du <= r /\
      is_water (get_edge_data G u e) = false.
Proof.
  intros G c r exits Hnd H e He.
  destruct (exits_are_candidates _ _ _ _ H e He) as [ins [outs [u [Hc Hbp]]]].
  destruct (boundary_pairs_spec _ _ _ _ _ Hbp) as [Hu [Hnb [Hout Hw]]].
  destruct (classify_spec _ _ _ _ _ _ _ Hc) as [Hi Ho].
  destruct (Ho e Hout) as [[]|[d [Hl [Hd1 Hd2]]]].
  destruct (Hi u Hu) as [[]|[du [Hlu Hdu]]].
  destruct (listed_node_dist _ _ _ _ Hnd Hl) as [Hde Hnwe].
  destruct (listed_node_dist _ _ _ _ Hnd Hlu) as [Hdu' Hnwu].
  split; [exact Hnwe|]. split; [exists d; split; [exact Hde|lra]|].
  exists u, du. auto.
Qed.

(** X7: every node returned by [get_disaster_exit_nodes] is a dry node
    strictly outside the radius and at most [buffer_distance] (100 m)
    beyond it, and it is the neighbour of a dry node inside the radius
    across an edge not flagged [is_water]. (Node ids are unique, as the
    keys of a Python dict.) *)
Theorem exit_nodes_on_boundary : forall G c r exits,
    NoDup (map fst (g_nodes G)) ->
    get_disaster_exit_nodes G c r = Ok exits -> forall e, In e exits ->
    non_water_node G e /\ (exists d, node_dist G c e d /\ r < d <= r + buffer_distance) /\
    exists u du, In e (neighbors G u) /\ non_water_node G u /\ node_dist G c u du /\ du <= r /\
      is_water (get_edge_data G u e) = false.
Proof. exact exit_node_facts. Qed.

Lemma aindex_amem : forall nd k v, aindex nd k = Ok v -> amem nd k = true.
Proof.
  intros nd k v H. unfold aindex in H. unfold amem, dmem. fold (aget nd k).
  destruct (aget nd k); [reflexivity|discriminate].
Qed.

Lemma last_rev_hd : forall (l : list node) d, l <> [] -> last (rev l) d = hd d l.
Proof.
  intros [|x l] d H; [contradiction|]. simpl. apply last_last.
Qed.

(** The reconstructed path ends at the first node pushed: the node the
    search stopped at. *)
Lemma reconstruct_last : forall start fuel cf cur path p,
    reconstruct fuel cf start cur path = Ok p ->
    (path = [] -> reached start cf cur) ->
    last p start = hd cur path.
Proof.
  intros start. induction fuel as [|k IH]; intros cf cur path p Hr Hre; cbn [reconstruct] in Hr;
    [discriminate|].
  destruct (dget Nat.eqb cf cur) as [prev|] eqn:Hc.
  - rewrite (IH _ _ _ _ Hr) by (intros E; destruct path; discriminate).
    destruct path; reflexivity.
  - inversion Hr; subst p. destruct path as [|x path'].
    + destruct (Hre eq_refl) as [E|E]; [subst; reflexivity|contradiction].
    + rewrite last_rev_hd by (destruct path'; discriminate). reflexivity.
Qed.

Lemma search_last : forall G start fuel heur exit_nodes s p,
    search fuel heur G exit_nodes start s = Ok (Some p) ->
    search_inv G start s ->
    In (last p start) exit_nodes.
Proof.
  intros G start. induction fuel as [|k IH]; intros heur exit_nodes s p Hs Hinv;
    cbn [search] in Hs; [discriminate|].
  destruct (pq_get (open_set s)) as [[[f current] rest]|] eqn:Hpq; [|discriminate].
  destruct (pq_get_in _ _ _ Hpq) as [Hm Hrest].
  destruct Hinv as [Hcf Hopen].
  destruct (set_remove current (open_hash s)) as [e|hash]; [discriminate|]. cbn [bind] in Hs.
  assert (Hcur : reached start (came_from s) current) by (eapply Hopen; exact Hm).
  destruct (mem current exit_nodes) eqn:Hmem.
  - destruct (reconstruct _ _ _ _ _) as [e|path] eqn:Hrec; [discriminate|].
    cbn [bind] in Hs. inversion Hs; subst path.
    rewrite (reconstruct_last start _ _ _ _ _ Hrec (fun _ => Hcur)). apply mem_in. exact Hmem.
  - destruct (expand _ _ _ _ _) as [e|s2] eqn:Hexp; [discriminate|]. cbn [bind] in Hs.
    eapply IH; [exact Hs|].
    eapply expand_inv; [exact Hexp|apply incl_refl|exact Hcur|].
    split; [assumption|]. simpl. intros f' n Hin. eapply Hopen. apply Hrest. exact Hin.
Qed.

Lemma route_end_facts : forall fuel G s c r p,
    NoDup (map fst (g_nodes G)) ->
    a_star_evacuation fuel G (Some s) c r = Ok (Some p) -> p <> [] ->
    (exists d0, node_dist G c s d0 /\ d0 <= r) /\
    non_water_node G (last p s) /\
    (exists d, node_dist G c (last p s) d /\ r < d <= r + buffer_distance) /\
    exists u du, In (last p s) (neighbors G u) /\ non_water_node G u /\ node_dist G c u du /\
      du <= r /\ is_water (get_edge_data G u (last p s)) = false.
Proof.
  intros fuel G s c r p Hnd H Hne. unfold a_star_evacuation in H.
  destruct (is_in_disaster_radius s c r G) as [e|inside] eqn:Hin; [discriminate|].
  cbn [bind Ok] in H.
  destruct inside; cbn [negb] in H.
  2:{ inversion H; subst; contradiction. }
  destruct (get_disaster_exit_nodes G c r) as [e|exits] eqn:Hex; [discriminate|].
  cbn [bind Ok] in H.
  destruct exits as [|x xs]; [discriminate|].
  destruct (heuristic G (x :: xs) c r s) as [e|hv]; [discriminate|]. cbn [bind] in H.
  assert (Hstart : exists d0, node_dist G c s d0 /\ d0 <= r).
  { unfold is_in_disaster_radius in Hin.
    destruct (node_attrs G s) as [e|nd] eqn:Hna; [discriminate|]. cbn [bind Ok] in Hin.
    destruct (aindex nd "y") as [e|y] eqn:Hy; [discriminate|]. cbn [bind Ok] in Hin.
    destruct (aindex nd "x") as [e|x'] eqn:Hx; [discriminate|]. cbn [bind Ok] in Hin.
    destruct (haversine_val y x' (fst c) (snd c)) as [e|d0] eqn:Hd; [discriminate|].
    cbn [bind Ok] in Hin. inversion Hin as [Hle].
    unfold Rleb in Hle. destruct (Rle_dec d0 r) as [Hle'|]; [|discriminate].
    exists d0. split; [|exact Hle'].
    exists nd, y, x'. rewrite (aindex_amem _ _ _ Hx), (aindex_amem _ _ _ Hy). auto. }
  split; [exact Hstart|].
  apply (exit_node_facts G c r (x :: xs) Hnd Hex).
  eapply search_last; [exact H|apply init_state_inv].
Qed.

(** X8: a non-empty route returned by [a_star_evacuation] starts at a
    node within the radius and ends at a dry node strictly outside it, at
    most [buffer_distance] beyond it, reached from a dry node inside the
    radius across a non-water edge (the exit-node conditions). *)
Theorem route_ends_outside : forall fuel G s c r p,
    NoDup (map fst (g_nodes G)) ->
    a_star_evacuation fuel G (Some s) c r = Ok (Some p) -> p <> [] ->
    (exists d0, node_dist G c s d0 /\ d0 <= r) /\
    non_water_node G (last p s) /\
    (exists d, node_dist G c (last p s) d /\ r < d <= r + buffer_distance) /\
    exists u du, In (last p s) (neighbors G u) /\ non_water_node G u /\ node_dist G c u du /\
      du <= r /\ is_water (get_edge_data G u (last p s)) = false.
Proof. exact route_end_facts. Qed.

Lemma water_start_nodup : NoDup (map fst (g_nodes G_water_start)).
Proof.
  cbn. constructor; [intros [H|[H|[]]]; discriminate|].
  constructor; [intros [H|[]]; discriminate|].
  constructor; [intros []|constructor].
Qed.

(** Witness for X7: on [G_water_start] the exit node 2 lies 111 m from
    the centre, outside the 100 m radius, next to node 0 at the centre. *)
Lemma exit_nodes_on_boundary_witness :
  get_disaster_exit_nodes G_water_start (0, 0) 100 = Ok [2%nat] /\
  non_water_node G_water_start 2%nat /\
  (exists d, node_dist G_water_start (0, 0) 2%nat d /\ 100 < d <= 100 + buffer_distance) /\
  exists u du, In 2%nat (neighbors G_water_start u) /\ non_water_node G_water_start u /\
    node_dist G_water_start (0, 0) u du /\ du <= 100 /\
    is_water (get_edge_data G_water_start u 2%nat) = false.
Proof.
  split; [exact exits_water_start|].
  apply (exit_nodes_on_boundary G_water_start (0, 0) 100 [2%nat]);
    [exact water_start_nodup
    |exact exits_water_start|left; reflexivity].
Defined.

(** Witness for X8: the route [[0; 2]] on [G_water_start]. *)
Lemma route_ends_outside_witness :
  a_star_evacuation 2 G_water_start (Some 0%nat) (0, 0) 100 = Ok (Some [0%nat; 2%nat]) /\
  (exists d0, node_dist G_water_start (0, 0) 0%nat d0 /\ d0 <= 100) /\
  non_water_node G_water_start 2%nat /\
  (exists d, node_dist G_water_start (0, 0) 2%nat d /\ 100 < d <= 100 + buffer_distance) /\
  exists u du, In 2%nat (neighbors G_water_start u) /\ non_water_node G_water_start u /\
    node_dist G_water_start (0, 0) u du /\ du <= 100 /\
    is_water (get_edge_data G_water_start u 2%nat) = false.
Proof.
  split; [exact route_water_start|].
  apply (route_ends_outside 2 G_water_start 0%nat (0, 0) 100 [0%nat; 2%nat]);
    [exact water_start_nodup
    |exact route_water_start|discriminate].
Defined.

Lemma heuristic_water_start_exit :
  heuristic G_water_start [2%nat] (0, 0) 100 2%nat = Ok (Fin 0).
Proof.
  unfold heuristic, min_exit_distance, haversine_val. do 3 run_step. reflexivity.
Qed.

(** Witness for X4: the heuristic at the exit node itself is [0]. *)
Lemma heuristic_nonneg_witness :
  heuristic G_water_start [2%nat] (0, 0) 100 2%nat = Ok (Fin 0) /\ 0 <= 0.
Proof.
  split; [exact heuristic_water_start_exit|].
  exact (heuristic_nonneg G_water_start [2%nat] (0, 0) 100 2%nat 0 heuristic_water_start_exit).
Defined.

(** ** The coordinates of a route *)

Lemma amem_aindex : forall nd k, amem nd k = true -> exists v, aindex nd k = Ok v.
Proof.
  intros nd k H. unfold amem, dmem in H. fold (aget nd k) in H. unfold aindex.
  destruct (aget nd k) as [v|]; [exists v; reflexivity|discriminate].
Qed.

Lemma coords_loop_app : forall G l1 l2 a b,
    coords_loop G l1 = Ok a -> coords_loop G l2 = Ok b -> coords_loop G (l1 ++ l2) = Ok (a ++ b).
Proof.
  intros G. induction l1 as [|n l1 IH]; intros l2 a b H1 H2; cbn [coords_loop app] in *.
  - inversion H1; subst. exact H2.
  - destruct (node_attrs G n) as [e|nd]; [discriminate|]. cbn [bind Ok] in *.
    destruct (amem nd "x" && amem nd "y").
    + destruct (aindex nd "y") as [e|y]; [discriminate|]. cbn [bind Ok] in *.
      destruct (aindex nd "x") as [e|x]; [discriminate|]. cbn [bind Ok] in *.
      destruct (coords_loop G l1) as [e|rest]; [discriminate|]. cbn [bind Ok] in *.
      inversion H1; subst a. rewrite (IH l2 rest b eq_refl H2). reflexivity.
    + exact (IH l2 a b H1 H2).
Qed.

(** [coords_loop] succeeds on a path of nodes of the graph. *)
Lemma coords_loop_total : forall G l,
    Forall (fun n => exists nd, node_attrs G n = Ok nd) l -> exists cs, coords_loop G l = Ok cs.
Proof.
  intros G. induction l as [|n l IH]; intros H; cbn [coords_loop]; [exists []; reflexivity|].
  inversion H as [|? ? [nd Hn] Hl]; subst. destruct (IH Hl) as [cs Hcs].
  rewrite Hn. cbn [bind Ok].
  destruct (amem nd "x") eqn:Hx, (amem nd "y") eqn:Hy; cbn [andb]; try (exists cs; exact Hcs).
  destruct (amem_aindex _ _ Hx) as [x Ex], (amem_aindex _ _ Hy) as [y Ey].
  rewrite Ey, Ex. cbn [bind Ok]. rewrite Hcs. exists ((y, x) :: cs). reflexivity.
Qed.

Lemma coords_loop_one : forall G n nd y x,
    node_attrs G n = Ok nd -> aindex nd "y" = Ok y -> aindex nd "x" = Ok x ->
    coords_loop G [n] = Ok [(y, x)].
Proof.
  intros G n nd y x Hn Hy Hx. cbn [coords_loop]. rewrite Hn. cbn [bind Ok].
  rewrite (aindex_amem _ _ _ Hx), (aindex_amem _ _ _ Hy). cbn [andb].
  rewrite Hy, Hx. reflexivity.
Qed.

Lemma node_dist_fun : forall G c n d1 d2, node_dist G c n d1 -> node_dist G c n d2 -> d1 = d2.
Proof.
  intros G c n d1 d2 [nd [y [x [Hn [_ [Hy [Hx Hd]]]]]]] [nd' [y' [x' [Hn' [_ [Hy' [Hx' Hd']]]]]]].
  rewrite Hn in Hn'. inversion Hn'; subst nd'.
  rewrite Hy in Hy'. inversion Hy'; subst y'. rewrite Hx in Hx'. inversion Hx'; subst x'.
  rewrite Hd in Hd'. inversion Hd'. reflexivity.
Qed.

Lemma route_coordinates_facts : forall fuel G s c r p,
    NoDup (map fst (g_nodes G)) ->
    a_star_evacuation fuel G (Some s) c r = Ok (Some p) -> p <> [] ->
    exists nd0 y0 x0 ndl yl xl mid,
      node_attrs G s = Ok nd0 /\ aindex nd0 "y" = Ok y0 /\ aindex nd0 "x" = Ok x0 /\
      node_attrs G (last p s) = Ok ndl /\ aindex ndl "y" = Ok yl /\ aindex ndl "x" = Ok xl /\
      get_path_coordinates G p = Ok ((y0, x0) :: mid ++ [(yl, xl)]).
Proof.
  intros fuel G s c r p Hnd H Hne.
  destruct (route_end_facts fuel G s c r p Hnd H Hne)
    as [[d0 [Hs Hd0]] [_ [[d [Hl Hd]] _]]].
  destruct (a_star_route_shape fuel G s c r p H) as [->|[rest [-> [_ Hrest]]]];
    [contradiction|].
  destruct rest as [|m rest'] using rev_ind.
  { cbn [last] in Hl. rewrite (node_dist_fun _ _ _ _ _ Hs Hl) in Hd0. lra. }
  clear IHrest'.
  change (s :: rest' ++ [m]) with ((s :: rest') ++ [m]) in Hl |- *.
  rewrite last_last in Hl |- *.
  apply Forall_app in Hrest as [Hmid _].
  destruct Hs as [nd0 [y0 [x0 [Hn0 [_ [Hy0 [Hx0 _]]]]]]].
  destruct Hl as [ndl [yl [xl [Hnl [_ [Hyl [Hxl _]]]]]]].
  destruct (coords_loop_total G rest') as [mid Hm].
  { eapply Forall_impl; [|exact Hmid]. intros n [nd [Hn _]]. exists nd. exact Hn. }
  exists nd0, y0, x0, ndl, yl, xl, mid. repeat split; try assumption.
  unfold get_path_coordinates. cbn [app].
  change (s :: rest' ++ [m]) with ([s] ++ rest' ++ [m]).
  rewrite (coords_loop_app G [s] (rest' ++ [m]) [(y0, x0)] (mid ++ [(yl, xl)])).
  - reflexivity.
  - exact (coords_loop_one _ _ _ _ _ Hn0 Hy0 Hx0).
  - apply coords_loop_app; [exact Hm|exact (coords_loop_one _ _ _ _ _ Hnl Hyl Hxl)].
Qed.

(** X9: for a non-empty route returned by [a_star_evacuation],
    [get_path_coordinates] raises nothing, and the coordinate list starts
    with the [(y, x)] of the start node and ends with the [(y, x)] of the
    last node, with at least these two entries. *)
Theorem route_coordinates : forall fuel G s c r p,
    NoDup (map fst (g_nodes G)) ->
    a_star_evacuation fuel G (Some s) c r = Ok (Some p) -> p <> [] ->
    exists nd0 y0 x0 ndl yl xl mid,
      node_attrs G s = Ok nd0 /\ aindex nd0 "y" = Ok y0 /\ aindex nd0 "x" = Ok x0 /\
      node_attrs G (last p s) = Ok ndl /\ aindex ndl "y" = Ok yl /\ aindex ndl "x" = Ok xl /\
      get_path_coordinates G p = Ok ((y0, x0) :: mid ++ [(yl, xl)]).
Proof. exact route_coordinates_facts. Qed.

(** Witness for X9: the route [[0; 2]] on [G_water_start]. *)
Lemma route_coordinates_witness :
  a_star_evacuation 2 G_water_start (Some 0%nat) (0, 0) 100 = Ok (Some [0%nat; 2%nat]) /\
  exists nd0 y0 x0 ndl yl xl mid,
    node_attrs G_water_start 0%nat = Ok nd0 /\ aindex nd0 "y" = Ok y0 /\
    aindex nd0 "x" = Ok x0 /\
    node_attrs G_water_start (last [0%nat; 2%nat] 0%nat) = Ok ndl /\
    aindex ndl "y" = Ok yl /\ aindex ndl "x" = Ok xl /\
    get_path_coordinates G_water_start [0%nat; 2%nat] = Ok ((y0, x0) :: mid ++ [(yl, xl)]).
Proof.
  split; [exact route_water_start|].
  apply (route_coordinates 2 G_water_start 0%nat (0, 0) 100 [0%nat; 2%nat]);
    [exact water_start_nodup|exact route_water_start|discriminate].
Defined.

(** ** The drawing helpers *)

Lemma check_map_eq : forall point center radius,
    check_if_in_radius_map point center radius = check_if_in_radius point center radius.
Proof.
  intros [lat1 lon1] [lat2 lon2] radius.
  unfold check_if_in_radius_map, check_if_in_radius, haversine_distance. cbn [fst snd].
  destruct (Rlt_dec _ 0); [reflexivity|].
  destruct (Rlt_dec 1 _); reflexivity.
Qed.

(** X10: the inline radius test of map_utils.py computes exactly what
    [check_if_in_radius] of data_processing.py computes, on every input. *)
Theorem check_if_in_radius_map_agrees : forall point center radius,
    check_if_in_radius_map point center radius = check_if_in_radius point center radius.
Proof. exact check_map_eq. Qed.




Lemma py_index_nat : forall {A : Type} (l : list A) k,
    (k < List.length l)%nat -> exists a, nth_error l k = Some a /\ py_index l (Z.of_nat k) = Ok a.
Proof.
  intros A l k Hk. destruct (nth_error l k) as [a|] eqn:E.
  2:{ apply nth_error_None in E. lia. }
  exists a. split; [reflexivity|]. unfold py_index.
  assert (E1 : (Z.of_nat k <? 0)%Z = false) by (apply Z.ltb_ge; lia).
  assert (E2 : (Z.of_nat (List.length l) <=? Z.of_nat k)%Z = false) by (apply Z.leb_gt; lia).
  rewrite E1. cbn iota. rewrite E1, E2. cbn [orb]. rewrite Nat2Z.id, E. reflexivity.
Qed.

Lemma add_arrow_ok : forall m p1 p2 color a1 b1 a2 b2,
    as_number (fst p1) = Ok a1 -> as_number (snd p1) = Ok b1 ->
    as_number (fst p2) = Ok a2 -> as_number (snd p2) = Ok b2 ->
    exists rot, add_arrow m p1 p2 color =
      Ok (m ++ [RegularPolygonMarker p2 3 6 rot color color (8 / 10)]).
Proof.
  intros m p1 p2 color a1 b1 a2 b2 H1 H2 H3 H4. unfold add_arrow, val_sub.
  rewrite H1, H2, H3, H4. cbn [bind Ok].
  eexists. reflexivity.
Qed.

Lemma numeric_nth : forall cs k p,
    Forall numeric_point cs -> nth_error cs k = Some p ->
    exists a b, as_number (fst p) = Ok a /\ as_number (snd p) = Ok b.
Proof.
  intros cs k p Hf Hp. apply nth_error_In in Hp.
  rewrite Forall_forall in Hf. destruct (Hf p Hp) as [[a Ha] [b Hb]]. exists a, b. auto.
Qed.

Lemma route_color_index : forall i,
    py_index route_colors (Z.of_nat (Nat.modulo i (List.length route_colors))) =
    Ok (nth (Nat.modulo i (List.length route_colors)) route_colors ""%string).
Proof.
  intros i. assert (Hk : (Nat.modulo i (List.length route_colors) < List.length route_colors)%nat)
    by (apply Nat.mod_upper_bound; discriminate).
  destruct (py_index_nat route_colors _ Hk) as [a [Ea Ha]]. rewrite Ha.
  rewrite (nth_error_nth _ _ ""%string Ea). reflexivity.
Qed.

Lemma draw_route_facts : forall G m i route cs,
    coords_loop G route = Ok cs -> cs <> [] -> Forall numeric_point cs ->
    exists arrows,
      draw_route G m i (Some route) =
        Ok (m ++ PolyLine cs (nth (Nat.modulo i (List.length route_colors)) route_colors ""%string)
                  4 (8 / 10) ("Evacuation Route for Person " ++ nat_str (i + 1))%string
              :: arrows) /\
      ((List.length cs < 2)%nat -> arrows = []) /\
      ((2 <= List.length cs < 4)%nat -> exists p rot,
         nth_error cs (Nat.div (List.length cs) 2) = Some p /\
         arrows = [RegularPolygonMarker p 3 6 rot
                     (nth (Nat.modulo i (List.length route_colors)) route_colors ""%string)
                     (nth (Nat.modulo i (List.length route_colors)) route_colors ""%string)
                     (8 / 10)]) /\
      ((4 <= List.length cs)%nat -> exists p q rot1 rot2,
         nth_error cs (Nat.div (List.length cs) 2) = Some p /\
         nth_error cs (List.length cs - 2) = Some q /\
         arrows = [RegularPolygonMarker p 3 6 rot1
                     (nth (Nat.modulo i (List.length route_colors)) route_colors ""%string)
                     (nth (Nat.modulo i (List.length route_colors)) route_colors ""%string)
                     (8 / 10);
                   RegularPolygonMarker q 3 6 rot2
                     (nth (Nat.modulo i (List.length route_colors)) route_colors ""%string)
                     (nth (Nat.modulo i (List.length route_colors)) route_colors ""%string)
                     (8 / 10)]).
Proof.
  intros G m i route cs Hc Hne Hnum.
  destruct route as [|n0 route'] eqn:Er.
  { cbn in Hc. inversion Hc; subst. contradiction. }
  subst route. unfold draw_route. cbv beta iota. rewrite Hc. cbn [bind Ok].
  destruct cs as [|c0 cs'] eqn:Ecs; [contradiction|]. rewrite <- Ecs in Hc, Hne, Hnum |- *.
  rewrite route_color_index. cbn [bind Ok].
  set (col := nth (Nat.modulo i (List.length route_colors)) route_colors ""%string).
  set (pl := PolyLine cs col 4 (8 / 10) ("Evacuation Route for Person " ++ nat_str (i + 1))%string).
  set (n := List.length cs).
  assert (Hn1 : (1 <= n)%nat) by (unfold n; rewrite Ecs; cbn; lia).
  destruct (Nat.lt_ge_cases n 2) as [Hlt2|Hge2].
  { replace (2 <=? Z.of_nat n)%Z with false by (symmetry; apply Z.leb_gt; lia).
    exists []. split; [reflexivity|].
    split; [reflexivity|]. split; intros; lia. }
  replace (2 <=? Z.of_nat n)%Z with true by (symmetry; apply Z.leb_le; lia).
  assert (Hmid : (Z.of_nat n / 2 = Z.of_nat (Nat.div n 2))%Z)
    by (rewrite Nat2Z.inj_div; reflexivity).
  assert (Hmid1 : (Z.of_nat n / 2 - 1 = Z.of_nat (Nat.div n 2 - 1))%Z).
  { rewrite Hmid. rewrite Nat2Z.inj_sub; [reflexivity|].
    apply (Nat.div_le_lower_bound n 2 1); lia. }
  assert (Hlt : (Nat.div n 2 < n)%nat) by (apply Nat.div_lt; lia).
  assert (Hlt1 : (Nat.div n 2 - 1 < n)%nat) by lia.
  destruct (py_index_nat cs _ Hlt1) as [p1 [E1 P1]].
  destruct (py_index_nat cs _ Hlt) as [p2 [E2 P2]].
  rewrite Hmid1, P1. cbn [bind Ok]. rewrite Hmid, P2. cbn [bind Ok].
  destruct (numeric_nth _ _ _ Hnum E1) as [a1 [b1 [Ha1 Hb1]]].
  destruct (numeric_nth _ _ _ Hnum E2) as [a2 [b2 [Ha2 Hb2]]].
  destruct (add_arrow_ok (m ++ [pl]) p1 p2 col a1 b1 a2 b2 Ha1 Hb1 Ha2 Hb2) as [rot1 A1].
  rewrite A1. cbn [bind Ok].
  destruct (Nat.lt_ge_cases n 4) as [Hlt4|Hge4].
  { replace (4 <=? Z.of_nat n)%Z with false by (symmetry; apply Z.leb_gt; lia).
    exists [RegularPolygonMarker p2 3 6 rot1 col col (8 / 10)].
    split; [rewrite <- app_assoc; reflexivity|].
    split; [intros; lia|]. split; [|intros; lia].
    intros _. exists p2, rot1. split; [exact E2|reflexivity]. }
  replace (4 <=? Z.of_nat n)%Z with true by (symmetry; apply Z.leb_le; lia).
  assert (Hend : (Z.of_nat n - 2 = Z.of_nat (n - 2))%Z) by (rewrite Nat2Z.inj_sub; lia).
  assert (Hend1 : (Z.of_nat n - 2 - 1 = Z.of_nat (n - 2 - 1))%Z) by (rewrite !Nat2Z.inj_sub; lia).
  assert (Hl3 : (n - 2 - 1 < n)%nat) by lia.
  assert (Hl4 : (n - 2 < n)%nat) by lia.
  destruct (py_index_nat cs _ Hl3) as [p3 [E3 P3]].
  destruct (py_index_nat cs _ Hl4) as [p4 [E4 P4]].
  rewrite Hend1, P3. cbn [bind Ok]. rewrite Hend, P4. cbn [bind Ok].
  destruct (numeric_nth _ _ _ Hnum E3) as [a3 [b3 [Ha3 Hb3]]].
  destruct (numeric_nth _ _ _ Hnum E4) as [a4 [b4 [Ha4 Hb4]]].
  destruct (add_arrow_ok ((m ++ [pl]) ++ [RegularPolygonMarker p2 3 6 rot1 col col (8 / 10)])
              p3 p4 col a3 b3 a4 b4 Ha3 Hb3 Ha4 Hb4) as [rot2 A2].
  rewrite A2.
  exists [RegularPolygonMarker p2 3 6 rot1 col col (8 / 10);
          RegularPolygonMarker p4 3 6 rot2 col col (8 / 10)].
  split; [rewrite <- !app_assoc; reflexivity|].
  split; [intros; lia|]. split; [intros; lia|].
  intros _. exists p2, p4, rot1, rot2. auto.
Qed.

Lemma coords_loop_from : forall G l cs, coords_loop G l = Ok cs ->
    forall p, In p cs -> exists n nd, In n l /\ node_attrs G n = Ok nd /\
      aindex nd "y" = Ok (fst p) /\ aindex nd "x" = Ok (snd p).
Proof.
  intros G. induction l as [|n l IH]; intros cs H p Hp; cbn [coords_loop] in H.
  - inversion H; subst. destruct Hp.
  - destruct (node_attrs G n) as [e|nd] eqn:Hn; [discriminate|]. cbn [bind Ok] in H.
    destruct (amem nd "x" && amem nd "y").
    + destruct (aindex nd "y") as [e|y] eqn:Hy; [discriminate|]. cbn [bind Ok] in H.
      destruct (aindex nd "x") as [e|x] eqn:Hx; [discriminate|]. cbn [bind Ok] in H.
      destruct (coords_loop G l) as [e|rest] eqn:Hl; [discriminate|]. cbn [bind Ok] in H.
      inversion H; subst cs. destruct Hp as [<-|Hp].
      * exists n, nd. split; [left; reflexivity|auto].
      * destruct (IH rest eq_refl p Hp) as [n' [nd' [A B]]]. exists n', nd'. split; [right|]; auto.
    + destruct (IH cs H p Hp) as [n' [nd' [A B]]]. exists n', nd'. split; [right|]; auto.
Qed.

Lemma draw_route_bound : forall G m i route,
    (forall r, route = Some r -> Forall (fun n => exists nd, node_attrs G n = Ok nd /\
       forall y x, aindex nd "y" = Ok y -> aindex nd "x" = Ok x -> numeric_point (y, x)) r) ->
    exists added, draw_route G m i route = Ok (m ++ added) /\ (List.length added <= 3)%nat.
Proof.
  intros G m i route H.
  destruct route as [[|n0 r']|].
  2:{ specialize (H _ eq_refl).
      destruct (coords_loop_total G (n0 :: r')) as [cs Hc].
      { eapply Forall_impl; [|exact H]. intros n [nd [Hn _]]. exists nd. exact Hn. }
      destruct cs as [|c0 cs'].
      - exists []. rewrite app_nil_r. split; [|cbn; lia].
        unfold draw_route. cbv beta iota. rewrite Hc. reflexivity.
      - assert (Hnum : Forall numeric_point (c0 :: cs')).
        { apply Forall_forall. intros p Hp.
          destruct (coords_loop_from _ _ _ Hc p Hp) as [n [nd [Hin [Hn [Hy Hx]]]]].
          rewrite Forall_forall in H. destruct (H n Hin) as [nd' [Hn' Hnum]].
          rewrite Hn in Hn'. inversion Hn'; subst nd'. destruct p. exact (Hnum _ _ Hy Hx). }
        destruct (draw_route_facts G m i (n0 :: r') (c0 :: cs') Hc ltac:(discriminate) Hnum)
          as [arrows [Hd [A [B C]]]].
        exists (PolyLine (c0 :: cs')
                  (nth (Nat.modulo i (List.length route_colors)) route_colors ""%string)
                  4 (8 / 10) ("Evacuation Route for Person " ++ nat_str (i + 1))%string
                :: arrows).
        split; [exact Hd|].
        destruct (Nat.lt_ge_cases (List.length (c0 :: cs')) 2) as [L|L];
          [rewrite (A L); cbn; lia|].
        destruct (Nat.lt_ge_cases (List.length (c0 :: cs')) 4) as [L4|L4].
        + destruct (B (conj L L4)) as [p [rot [_ ->]]]. cbn; lia.
        + destruct (C L4) as [p [q [r1 [r2 [_ [_ ->]]]]]]. cbn; lia. }
  all: exists []; rewrite app_nil_r; split; [reflexivity|cbn; lia].
Qed.

Lemma routes_loop_bound : forall G items m i,
    (forall pt r, In (pt, Some r) items -> Forall (fun n => exists nd, node_attrs G n = Ok nd /\
       forall y x, aindex nd "y" = Ok y -> aindex nd "x" = Ok x -> numeric_point (y, x)) r) ->
    exists added, routes_loop G m i items = Ok (m ++ added) /\
      (List.length added <= 3 * List.length items)%nat.
Proof.
  intros G. induction items as [|[pt route] items IH]; intros m i H.
  - exists []. rewrite app_nil_r. split; [reflexivity|cbn; lia].
  - cbn [routes_loop].
    destruct (draw_route_bound G m i route) as [a1 [Hd L1]].
    { intros r ->. apply (H pt r). left; reflexivity. }
    rewrite Hd. cbn [bind Ok].
    destruct (IH (m ++ a1) (S i)) as [a2 [Hl L2]].
    { intros pt' r Hin. apply (H pt' r). right; exact Hin. }
    rewrite Hl, <- app_assoc. exists (a1 ++ a2). split; [reflexivity|].
    rewrite length_app. cbn [List.length]. lia.
Qed.

(** X12: one route of [add_evacuation_paths]: when its nodes give the
    non-empty coordinate list [cs] of numbers, the route adds a polyline
    through [cs] in colour [colors[i % 13]] with weight 4 and opacity 0.8,
    then no arrow if [cs] has one point, one arrow at [cs[len // 2]] if it
    has two or three, and arrows at [cs[len // 2]] and [cs[len - 2]] if it
    has four or more: the arrow indices are always in range. *)
Theorem draw_route_spec : forall G m i route cs,
    coords_loop G route = Ok cs -> cs <> [] -> Forall numeric_point cs ->
    exists arrows,
      draw_route G m i (Some route) =
        Ok (m ++ PolyLine cs (nth (Nat.modulo i (List.length route_colors)) route_colors ""%string)
                  4 (8 / 10) ("Evacuation Route for Person " ++ nat_str (i + 1))%string
              :: arrows) /\
      ((List.length cs < 2)%nat -> arrows = []) /\
      ((2 <= List.length cs < 4)%nat -> exists p rot,
         nth_error cs (Nat.div (List.length cs) 2) = Some p /\
         arrows = [RegularPolygonMarker p 3 6 rot
                     (nth (Nat.modulo i (List.length route_colors)) route_colors ""%string)
                     (nth (Nat.modulo i (List.length route_colors)) route_colors ""%string)
                     (8 / 10)]) /\
      ((4 <= List.length cs)%nat -> exists p q rot1 rot2,
         nth_error cs (Nat.div (List.length cs) 2) = Some p /\
         nth_error cs (List.length cs - 2) = Some q /\
         arrows = [RegularPolygonMarker p 3 6 rot1
                     (nth (Nat.modulo i (List.length route_colors)) route_colors ""%string)
                     (nth (Nat.modulo i (List.length route_colors)) route_colors ""%string)
                     (8 / 10);
                   RegularPolygonMarker q 3 6 rot2
                     (nth (Nat.modulo i (List.length route_colors)) route_colors ""%string)
                     (nth (Nat.modulo i (List.length route_colors)) route_colors ""%string)
                     (8 / 10)]).
Proof. exact draw_route_facts. Qed.

(** X13: when every node of every route is a node of the graph whose
    [y] and [x] values, if present, are numbers, [add_evacuation_paths]
    raises nothing, keeps the layers already on the map, and adds at most
    three layers per route. *)
Theorem add_evacuation_paths_ok : forall m routes G,
    (forall pt r, In (pt, Some r) routes -> Forall (fun n => exists nd, node_attrs G n = Ok nd /\
       forall y x, aindex nd "y" = Ok y -> aindex nd "x" = Ok x -> numeric_point (y, x)) r) ->
    exists added, add_evacuation_paths m routes G = Ok (m ++ added) /\
      (List.length added <= 3 * List.length routes)%nat.
Proof.
  intros m routes G H. destruct routes as [|it its] eqn:E.
  - exists []. rewrite app_nil_r. split; [reflexivity|cbn; lia].
  - rewrite <- E in H |- *. unfold add_evacuation_paths. rewrite E. rewrite <- E.
    exact (routes_loop_bound G routes m 0 H).
Qed.

Lemma coords_water_start :
  coords_loop G_water_start [0%nat; 2%nat] = Ok [(VNum 0, VNum 0); (VNum 0, VNum (1 / 1000))].
Proof. reflexivity. Qed.

Lemma coords_water_start_numeric :
  Forall numeric_point [(VNum 0, VNum 0); (VNum 0, VNum (1 / 1000))].
Proof.
  repeat constructor; cbn [fst snd as_number]; eexists; reflexivity.
Qed.

(** Witness for X12: the route [[0; 2]] on [G_water_start], drawn as the
    first route. *)
Lemma draw_route_spec_witness :
  coords_loop G_water_start [0%nat; 2%nat] = Ok [(VNum 0, VNum 0); (VNum 0, VNum (1 / 1000))] /\
  exists arrows,
    draw_route G_water_start [] 0 (Some [0%nat; 2%nat]) =
      Ok ([] ++ PolyLine [(VNum 0, VNum 0); (VNum 0, VNum (1 / 1000))]
                 (nth (Nat.modulo 0 (List.length route_colors)) route_colors ""%string)
                 4 (8 / 10) ("Evacuation Route for Person " ++ nat_str (0 + 1))%string
            :: arrows) /\
    ((List.length [(VNum 0, VNum 0); (VNum 0, VNum (1 / 1000))] < 2)%nat -> arrows = []) /\
    ((2 <= List.length [(VNum 0, VNum 0); (VNum 0, VNum (1 / 1000))] < 4)%nat -> exists p rot,
       nth_error [(VNum 0, VNum 0); (VNum 0, VNum (1 / 1000))]
         (Nat.div (List.length [(VNum 0, VNum 0); (VNum 0, VNum (1 / 1000))]) 2) = Some p /\
       arrows = [RegularPolygonMarker p 3 6 rot
                   (nth (Nat.modulo 0 (List.length route_colors)) route_colors ""%string)
                   (nth (Nat.modulo 0 (List.length route_colors)) route_colors ""%string)
                   (8 / 10)]) /\
    ((4 <= List.length [(VNum 0, VNum 0); (VNum 0, VNum (1 / 1000))])%nat -> exists p q rot1 rot2,
       nth_error [(VNum 0, VNum 0); (VNum 0, VNum (1 / 1000))]
         (Nat.div (List.length [(VNum 0, VNum 0); (VNum 0, VNum (1 / 1000))]) 2) = Some p /\
       nth_error [(VNum 0, VNum 0); (VNum 0, VNum (1 / 1000))]
         (List.length [(VNum 0, VNum 0); (VNum 0, VNum (1 / 1000))] - 2) = Some q /\
       arrows = [RegularPolygonMarker p 3 6 rot1
                   (nth (Nat.modulo 0 (List.length route_colors)) route_colors ""%string)
                   (nth (Nat.modulo 0 (List.length route_colors)) route_colors ""%string)
                   (8 / 10);
                 RegularPolygonMarker q 3 6 rot2
                   (nth (Nat.modulo 0 (List.length route_colors)) route_colors ""%string)
                   (nth (Nat.modulo 0 (List.length route_colors)) route_colors ""%string)
                   (8 / 10)]).
Proof.
  split; [exact coords_water_start|].
  apply (draw_route_spec G_water_start [] 0 [0%nat; 2%nat]
           [(VNum 0, VNum 0); (VNum 0, VNum (1 / 1000))]);
    [exact coords_water_start|discriminate|exact coords_water_start_numeric].
Defined.

Lemma water_start_route_nodes : forall pt r,
    In (pt, Some r) [((0, 0), Some [0%nat; 2%nat])] ->
    Forall (fun n => exists nd, node_attrs G_water_start n = Ok nd /\
      forall y x, aindex nd "y" = Ok y -> aindex nd "x" = Ok x -> numeric_point (y, x)) r.
Proof.
  intros pt r [H|[]]. inversion H; subst r.
  constructor; [|constructor; [|constructor]]; eexists; (split; [reflexivity|]);
    intros y x Hy Hx; cbn in Hy, Hx; inversion Hy; inversion Hx; subst;
    split; cbn; eexists; reflexivity.
Qed.

(** Witness for X13: one route [[0; 2]] on [G_water_start] drawn on an
    empty map. *)
Lemma add_evacuation_paths_ok_witness :
  (forall pt r, In (pt, Some r) [((0, 0), Some [0%nat; 2%nat])] ->
    Forall (fun n => exists nd, node_attrs G_water_start n = Ok nd /\
      forall y x, aindex nd "y" = Ok y -> aindex nd "x" = Ok x -> numeric_point (y, x)) r) /\
  exists added,
    add_evacuation_paths [] [((0, 0), Some [0%nat; 2%nat])] G_water_start = Ok ([] ++ added) /\
    (List.length added <= 3 * List.length [((0, 0), Some [0%nat; 2%nat])])%nat.
Proof.
  split; [exact water_start_route_nodes|].
  exact (add_evacuation_paths_ok [] [((0, 0), Some [0%nat; 2%nat])] G_water_start
           water_start_route_nodes).
Defined.

(** ** What the annotator writes *)

Lemma aget_aset_other : forall d k k2 v, k2 <> k -> aget (aset d k v) k2 = aget d k2.
Proof. intros d k k2 v Hne. unfold aget, aset. apply dget_dset_other; [apply String_eqb_spec'|exact Hne]. Qed.

Lemma amem_aset_other : forall d k k2 v, k2 <> k -> amem (aset d k v) k2 = amem d k2.
Proof.
  intros d k k2 v Hne. unfold amem, dmem. fold (aget (aset d k v) k2). fold (aget d k2).
  rewrite aget_aset_other by exact Hne. reflexivity.
Qed.

Lemma is_water_aset : forall d b, is_water (aset d "is_water" (VBool b)) = b.
Proof. intros d b. unfold is_water, aget_or, dget_or. fold (aget (aset d "is_water" (VBool b)) "is_water").
  rewrite aget_aset_same. reflexivity. Qed.

Lemma water_keys_aset : forall d b,
    existsb (amem (aset d "is_water" (VBool b))) ["waterway"; "water"; "natural"]%string =
    existsb (amem d) ["waterway"; "water"; "natural"]%string.
Proof.
  intros d b. cbn [existsb]. rewrite !amem_aset_other by discriminate. reflexivity.
Qed.

Lemma edge_annot_is_water : forall d nu nv,
    is_water (edge_annot d nu nv) =
    negb (is_bridge d) && (nu || nv || existsb (amem d) ["waterway"; "water"; "natural"]%string).
Proof.
  intros d nu nv. unfold edge_annot. cbv zeta.
  destruct (is_bridge d), nu, nv; cbn [negb andb orb]; rewrite water_keys_aset;
    destruct (existsb (amem d) _); cbn [negb]; rewrite ?is_water_aset; reflexivity.
Qed.

(** [dget] returns the value of the first entry with the key. *)
Lemma dget_nth : forall {V : Type} (xs : list (node * V)) k a,
    dget Nat.eqb xs k = Some a ->
    exists j, nth_error xs j = Some (k, a) /\
      forall j', (j' < j)%nat -> nth_error (map fst xs) j' <> Some k.
Proof.
  intros V. induction xs as [|[k' v'] xs IH]; intros k a H; [discriminate|].
  cbn in H. destruct (Nat.eqb k k') eqn:E.
  - apply Nat.eqb_eq in E. subst k'. inversion H; subst a.
    exists 0%nat. split; [reflexivity|intros j' Hj; lia].
  - destruct (IH k a H) as [j [Hj Hb]]. exists (S j). split; [exact Hj|].
    intros [|j'] Hj'; cbn.
    + intros Heq. inversion Heq; subst. rewrite Nat.eqb_refl in E. discriminate.
    + apply Hb. lia.
Qed.

Lemma nth_dget : forall {V : Type} (xs : list (node * V)) j k a,
    nth_error xs j = Some (k, a) ->
    (forall j', (j' < j)%nat -> nth_error (map fst xs) j' <> Some k) ->
    dget Nat.eqb xs k = Some a.
Proof.
  intros V. induction xs as [|[k' v'] xs IH]; intros j k a H Hb; [destruct j; discriminate|].
  destruct j as [|j]; cbn in H |- *.
  - inversion H; subst. rewrite Nat.eqb_refl. reflexivity.
  - destruct (Nat.eqb k k') eqn:E.
    + apply Nat.eqb_eq in E. subst k'. exfalso. apply (Hb 0%nat); [lia|reflexivity].
    + apply (IH j k a H). intros j' Hj'. apply (Hb (S j')). lia.
Qed.


Lemma mark_nodes_final : forall ns h, NoDup (map snd ns) ->
    forall n l, In (n, l) ns ->
    read (mark_nodes h ns) l = aset (read h l) "is_water" (VBool (node_water_tags (read h l))).
Proof.
  induction ns as [|[n0 l0] ns IH]; intros h Hnd n l Hin; [destruct Hin|].
  cbn [mark_nodes]. cbn [map] in Hnd. inversion Hnd as [|? ? Hnotin Hnd']; subst.
  destruct Hin as [Heq|Hin].
  - inversion Heq; subst n0 l0. unfold read at 1. rewrite mark_nodes_frame by exact Hnotin.
    fold (read (write h l (aset (read h l) "is_water" (VBool (node_water_tags (read h l))))) l).
    apply read_write_same.
  - rewrite (IH _ Hnd' n l Hin). rewrite read_write_other; [reflexivity|].
    intros ->. apply Hnotin. change l0 with (snd (n, l0)). apply in_map. exact Hin.
Qed.

(** The second loop reads the endpoint flags from dictionaries it never
    writes. *)
Lemma mark_edges_annot : forall ns es h h', mark_edges ns h es = Ok h' ->
    NoDup (map snd es) ->
    (forall n l', dget Nat.eqb ns n = Some l' -> ~ In l' (map snd es)) ->
    forall i u v l, nth_error es i = Some (u, v, l) ->
    exists lu lv, dget Nat.eqb ns u = Some lu /\ dget Nat.eqb ns v = Some lv /\
      read h' l = edge_annot (read h l) (is_water (read h lu)) (is_water (read h lv)).
Proof.
  intros ns es; induction es as [|[[u0 v0] l0] es IH]; intros h h' H Hnd Hdisj i u v l Hi.
  - destruct i; discriminate.
  - cbn [mark_edges] in H. unfold node_loc at 1 in H.
    destruct (dget Nat.eqb ns u0) as [lu0|] eqn:Hu0; [|discriminate]. cbn [bind Ok] in H.
    unfold node_loc in H.
    destruct (dget Nat.eqb ns v0) as [lv0|] eqn:Hv0; [|discriminate]. cbn [bind Ok] in H.
    cbn [map] in Hnd. inversion Hnd as [|? ? Hnotin Hnd']; subst.
    assert (Hdisj' : forall n l', dget Nat.eqb ns n = Some l' -> ~ In l' (map snd es)).
    { intros n l' Hn Hin. apply (Hdisj n l' Hn). right. exact Hin. }
    assert (Hne : forall n l', dget Nat.eqb ns n = Some l' -> l' <> l0).
    { intros n l' Hn ->. apply (Hdisj n l0 Hn). left. reflexivity. }
    destruct i as [|i]; cbn in Hi.
    + inversion Hi; subst u0 v0 l0. exists lu0, lv0. split; [exact Hu0|]. split; [exact Hv0|].
      unfold read at 1. rewrite (mark_edges_frame _ _ _ _ H l Hnotin).
      fold (read (write h l (edge_annot (read h l) (is_water (read h lu0))
                                        (is_water (read h lv0)))) l).
      apply read_write_same.
    + destruct (IH _ _ H Hnd' Hdisj' i u v l Hi) as [lu [lv [Hu [Hv E]]]].
      exists lu, lv. split; [exact Hu|]. split; [exact Hv|]. rewrite E.
      assert (Hl : l <> l0).
      { intros ->. apply Hnotin. change l0 with (snd (u, v, l0)). apply in_map.
        eapply nth_error_In; exact Hi. }
      rewrite (read_write_other _ _ l _ Hl), (read_write_other _ _ lu _ (Hne _ _ Hu)),
        (read_write_other _ _ lv _ (Hne _ _ Hv)).
      reflexivity.
Qed.


Lemma dget_in : forall {V : Type} (xs : list (node * V)) k a,
    dget Nat.eqb xs k = Some a -> In (k, a) xs.
Proof.
  intros V xs k a H. destruct (dget_nth xs k a H) as [j [Hj _]]. eapply nth_error_In; exact Hj.
Qed.

(** The copied dictionaries after [filter_road_network]: the [i]-th node
    copy is the original dictionary with [is_water] set by the node rule,
    and the [i]-th edge copy is [edge_annot] of the original edge
    dictionary with the node rule of its two endpoints' original
    dictionaries. *)
Lemma filter_rules : forall h G h' G',
    filter_road_network h G = Ok (h', G') ->
    (forall n l, In (n, l) (hg_nodes G) -> (l < h_next h)%nat) ->
    (forall u v l, In (u, v, l) (hg_edges G) -> (l < h_next h)%nat) ->
    (forall i n l, nth_error (hg_nodes G) i = Some (n, l) ->
       nth_error (hg_nodes G') i = Some (n, h_next h + i)%nat /\
       read h' (h_next h + i)%nat =
         aset (read h l) "is_water" (VBool (node_water_tags (read h l)))) /\
    (forall i u v l, nth_error (hg_edges G) i = Some (u, v, l) ->
       exists lu lv,
         dget Nat.eqb (hg_nodes G) u = Some lu /\ dget Nat.eqb (hg_nodes G) v = Some lv /\
         nth_error (hg_edges G') i =
           Some (u, v, h_next h + List.length (hg_nodes G) + i)%nat /\
         read h' (h_next h + List.length (hg_nodes G) + i)%nat =
           edge_annot (read h l) (node_water_tags (read h lu)) (node_water_tags (read h lv))).
Proof.
  intros h G h' G' H Hwn Hwe. unfold filter_road_network, graph_copy in H.
  rewrite copy_nodes_list in H.
  destruct (copy_list h (hg_nodes G)) as [h1 ns] eqn:Hn.
  cbv beta iota in H. rewrite copy_edges_list in H.
  destruct (copy_list h1 (hg_edges G)) as [h2 es] eqn:He.
  cbn [hg_nodes hg_edges] in H.
  destruct (mark_edges ns (mark_nodes h2 ns) es) as [e|h3] eqn:Hm; [discriminate|].
  cbn [bind Ok] in H. inversion H; subst h' G'. clear H. cbn [hg_nodes hg_edges].
  destruct (copy_list_spec _ _ _ _ _ Hn) as [N1 [N2 [N3 [N4 N5]]]].
  destruct (copy_list_spec _ _ _ _ _ He) as [E1 [E2 [E3 [E4 E5]]]].
  rewrite N3 in E2, E3, E4, E5.
  set (N := h_next h) in *. set (k := List.length (hg_nodes G)) in *.
  set (hm := mark_nodes h2 ns).
  assert (Hnode_loc : forall l, In l (map snd ns) -> (N <= l < N + k)%nat).
  { intros l Hl. rewrite N2 in Hl. apply in_seq in Hl. exact Hl. }
  assert (Hedge_loc : forall l, In l (map snd es) -> (N + k <= l)%nat).
  { intros l Hl. rewrite E2 in Hl. apply in_seq in Hl. lia. }
  (* the node copies after the first loop *)
  assert (Hnodes : forall j n l, nth_error (hg_nodes G) j = Some (n, l) ->
            nth_error ns j = Some (n, N + j)%nat /\ (j < k)%nat /\
            read hm (N + j)%nat = aset (read h l) "is_water" (VBool (node_water_tags (read h l)))).
  { intros j n l Hj.
    assert (Hlt : (j < k)%nat) by (apply nth_error_Some; rewrite Hj; discriminate).
    assert (Hns : nth_error ns j = Some (n, N + j)%nat).
    { apply nth_error_fst_snd.
      - transitivity (nth_error (map fst (hg_nodes G)) j); [f_equal; exact N1|].
        rewrite nth_error_map, Hj. reflexivity.
      - transitivity (nth_error (seq N k) j); [f_equal; exact N2|].
        rewrite nth_error_seq. apply Nat.ltb_lt in Hlt. rewrite Hlt. reflexivity. }
    split; [exact Hns|]. split; [exact Hlt|].
    unfold hm. rewrite (mark_nodes_final ns h2) with (n := n);
      [|rewrite N2; apply seq_NoDup|eapply nth_error_In; exact Hns].
    assert (Hl : (l < N)%nat) by (apply (Hwn n); eapply nth_error_In; exact Hj).
    assert (Hr : read h2 (N + j)%nat = read h l).
    { unfold read at 1. rewrite E4 by lia. fold (read h1 (N + j)%nat).
      exact (N5 j n l Hj Hl). }
    rewrite Hr. reflexivity. }
  split.
  - intros i n l Hi. destruct (Hnodes i n l Hi) as [Hns [Hlt Hr]].
    split; [exact Hns|]. unfold read at 1.
    rewrite (mark_edges_frame _ _ _ _ Hm) by (intro Hin; apply Hedge_loc in Hin; lia).
    exact Hr.
  - intros i u v l Hi.
    assert (Hlt : (i < List.length (hg_edges G))%nat).
    { apply nth_error_Some. rewrite Hi. discriminate. }
    assert (Hes : nth_error es i = Some (u, v, N + k + i)%nat).
    { apply nth_error_fst_snd.
      - transitivity (nth_error (map fst (hg_edges G)) i); [f_equal; exact E1|].
        rewrite nth_error_map, Hi. reflexivity.
      - transitivity (nth_error (seq (N + k) (List.length (hg_edges G))) i); [f_equal; exact E2|].
        rewrite nth_error_seq. apply Nat.ltb_lt in Hlt. rewrite Hlt. reflexivity. }
    destruct (mark_edges_annot _ _ _ _ Hm) with (i := i) (u := u) (v := v) (l := (N + k + i)%nat)
      as [lu' [lv' [Hu' [Hv' Hfin]]]];
      [rewrite E2; apply seq_NoDup
      |intros n l' Hdn Hin; apply dget_in, (in_map snd) in Hdn; apply Hnode_loc in Hdn;
       apply Hedge_loc in Hin; cbn [snd] in Hdn; lia
      |exact Hes|].
    (* an endpoint found in the copy is found in the original *)
    assert (Hend : forall w lw, dget Nat.eqb ns w = Some lw ->
              exists lw0, dget Nat.eqb (hg_nodes G) w = Some lw0 /\
                is_water (read hm lw) = node_water_tags (read h lw0)).
    { intros w lw Hw. destruct (dget_nth ns w lw Hw) as [j [Hj Hfirst]].
      assert (Hj0 : nth_error (map fst (hg_nodes G)) j = Some w).
      { rewrite <- N1, nth_error_map, Hj. reflexivity. }
      rewrite nth_error_map in Hj0.
      destruct (nth_error (hg_nodes G) j) as [[w' lw0]|] eqn:Hjg; [|discriminate].
      cbn in Hj0. inversion Hj0; subst w'.
      destruct (Hnodes j w lw0 Hjg) as [Hns [_ Hr]].
      rewrite Hj in Hns. inversion Hns; subst lw.
      exists lw0. split.
      - apply (nth_dget _ j w lw0 Hjg). intros j' Hj'. rewrite <- N1. apply Hfirst. exact Hj'.
      - rewrite Hr. apply is_water_aset. }
    destruct (Hend u lu' Hu') as [lu [Hu Hwu]].
    destruct (Hend v lv' Hv') as [lv [Hv Hwv]].
    exists lu, lv. split; [exact Hu|]. split; [exact Hv|]. split; [exact Hes|].
    change (mark_nodes h2 ns) with hm in Hfin. rewrite Hfin, Hwu, Hwv. f_equal.
    unfold hm, read at 1. rewrite mark_nodes_frame by (intro Hin; apply Hnode_loc in Hin; lia).
    fold (read h2 (N + k + i)%nat).
    assert (Hl : (l < N)%nat) by (apply (Hwe u v); eapply nth_error_In; exact Hi).
    rewrite (E5 i (u, v) l Hi) by lia.
    unfold read. rewrite N4 by exact Hl. reflexivity.
Qed.


(** X14: node rule of [filter_road_network]: the [i]-th node of the
    returned network is the [i]-th source node, stored in a fresh
    dictionary (location [h_next h + i]) holding the source dictionary with
    [is_water] set to the node obstacle rule of that source dictionary. *)
Theorem filter_node_rule : forall h G h' G',
    filter_road_network h G = Ok (h', G') ->
    (forall n l, In (n, l) (hg_nodes G) -> (l < h_next h)%nat) ->
    (forall u v l, In (u, v, l) (hg_edges G) -> (l < h_next h)%nat) ->
    forall i n l, nth_error (hg_nodes G) i = Some (n, l) ->
      nth_error (hg_nodes G') i = Some (n, h_next h + i)%nat /\
      read h' (h_next h + i)%nat =
        aset (read h l) "is_water" (VBool (node_water_tags (read h l))).
Proof.
  intros h G h' G' H Hwn Hwe. exact (proj1 (filter_rules h G h' G' H Hwn Hwe)).
Qed.

(** X15: edge rule of [filter_road_network]: the [i]-th edge of the
    returned network is stored in a fresh dictionary holding [edge_annot]
    of the source edge dictionary, where the endpoint flags are the node
    obstacle rule of the endpoints' source dictionaries; its [is_water]
    is [not is_bridge and (u flagged or v flagged or the edge has a
    waterway, water or natural key)]. *)
Theorem filter_edge_rule : forall h G h' G',
    filter_road_network h G = Ok (h', G') ->
    (forall n l, In (n, l) (hg_nodes G) -> (l < h_next h)%nat) ->
    (forall u v l, In (u, v, l) (hg_edges G) -> (l < h_next h)%nat) ->
    forall i u v l, nth_error (hg_edges G) i = Some (u, v, l) ->
      exists lu lv,
        dget Nat.eqb (hg_nodes G) u = Some lu /\ dget Nat.eqb (hg_nodes G) v = Some lv /\
        nth_error (hg_edges G') i = Some (u, v, h_next h + List.length (hg_nodes G) + i)%nat /\
        read h' (h_next h + List.length (hg_nodes G) + i)%nat =
          edge_annot (read h l) (node_water_tags (read h lu)) (node_water_tags (read h lv)) /\
        is_water (read h' (h_next h + List.length (hg_nodes G) + i)%nat) =
          negb (is_bridge (read h l)) &&
          (node_water_tags (read h lu) || node_water_tags (read h lv) ||
           existsb (amem (read h l)) ["waterway"; "water"; "natural"]%string).
Proof.
  intros h G h' G' H Hwn Hwe i u v l Hi.
  destruct (proj2 (filter_rules h G h' G' H Hwn Hwe) i u v l Hi) as [lu [lv [Hu [Hv [Hes Hr]]]]].
  exists lu, lv. repeat split; try assumption.
  rewrite Hr. apply edge_annot_is_water.
Qed.


(** Witness for X14: node 10 of [bridge_graph]. *)
Lemma filter_node_rule_witness :
  exists h' G', filter_road_network bridge_heap bridge_graph = Ok (h', G') /\
    nth_error (hg_nodes bridge_graph) 0 = Some (10%nat, 0%nat) /\
    nth_error (hg_nodes G') 0 = Some (10%nat, h_next bridge_heap + 0)%nat /\
    read h' (h_next bridge_heap + 0)%nat =
      aset (read bridge_heap 0%nat) "is_water" (VBool (node_water_tags (read bridge_heap 0%nat))).
Proof.
  do 2 eexists. split; [reflexivity|]. split; [reflexivity|].
  apply (filter_node_rule bridge_heap bridge_graph);
    [reflexivity|exact bridge_graph_wf_nodes|exact bridge_graph_wf_edges|reflexivity].
Defined.

(** Witness for X15: the bridge edge 10-11 of [bridge_graph]. *)
Lemma filter_edge_rule_witness :
  exists h' G', filter_road_network bridge_heap bridge_graph = Ok (h', G') /\
    nth_error (hg_edges bridge_graph) 0 = Some (10%nat, 11%nat, 2%nat) /\
    exists lu lv,
      dget Nat.eqb (hg_nodes bridge_graph) 10%nat = Some lu /\
      dget Nat.eqb (hg_nodes bridge_graph) 11%nat = Some lv /\
      nth_error (hg_edges G') 0 =
        Some (10%nat, 11%nat, h_next bridge_heap + List.length (hg_nodes bridge_graph) + 0)%nat /\
      read h' (h_next bridge_heap + List.length (hg_nodes bridge_graph) + 0)%nat =
        edge_annot (read bridge_heap 2%nat) (node_water_tags (read bridge_heap lu))
                   (node_water_tags (read bridge_heap lv)) /\
      is_water (read h' (h_next bridge_heap + List.length (hg_nodes bridge_graph) + 0)%nat) =
        negb (is_bridge (read bridge_heap 2%nat)) &&
        (node_water_tags (read bridge_heap lu) || node_water_tags (read bridge_heap lv) ||
         existsb (amem (read bridge_heap 2%nat)) ["waterway"; "water"; "natural"]%string).
Proof.
  do 2 eexists. split; [reflexivity|]. split; [reflexivity|].
  apply (filter_edge_rule bridge_heap bridge_graph);
    [reflexivity|exact bridge_graph_wf_nodes|exact bridge_graph_wf_edges|reflexivity].
Defined.
